(** * Mosaic display core: rotation scheduler and display orchestrator

    A shallow embedding of the Go packages [internal/rotation],
    [internal/config], [internal/apps], [internal/pixlet] and
    [internal/display] of mosaic-addon, with the properties of the
    rotation scheduler and of the display orchestrator proved over it.

    Conventions.
    - A Go [int], [time.Duration] or [time.Time] reading is a [Z]; where the
      source multiplies, the 64-bit wrap-around is written out with [wrap64].
    - [Manager.currentIndex] and slice lengths are [nat]: the source only
      ever stores [0] or a remainder modulo [len(apps)] of a non-negative
      sum in the index, and [startIdx + i + 1 < 2 * len(apps)] cannot
      overflow for a slice that fits in memory.
    - A mutex-protected method is one atomic state transformer; a goroutine
      started with [go] is returned as data (the callback argument, the
      pending restoration) for the caller of the model to run later.
    - A run-time panic (index out of range, closing a closed channel,
      [make] with a negative length) is [None]. *)

From Stdlib Require Import ZArith List Bool Lia Sorted.
From stdpp Require Import base option list gmap strings pretty sorting.

Local Open Scope Z_scope.

(** Two's-complement wrap-around of a 64-bit Go [int]. *)
Definition wrap64 (z : Z) : Z := (z + 2 ^ 63) mod 2 ^ 64 - 2 ^ 63.

(** ** Buffered channels of [struct{}]

    Only the number of buffered tokens matters. [try_send] is the
    [select { case ch <- struct{}{}: default: }] idiom, [try_recv] says
    whether a [case <-ch] of a [select] is ready and what is left: a
    buffered token, or the zero value of a closed channel.  The source
    closes [stopCh] only and never sends on it, so no send meets a closed
    channel. *)

Record chan : Type := Chan { chan_cap : nat; chan_len : nat; chan_closed : bool }.

Definition make_chan (cap : nat) : chan :=
  {| chan_cap := cap; chan_len := 0; chan_closed := false |}.

Definition try_send (c : chan) : chan :=
  if (chan_len c <? chan_cap c)%nat
  then {| chan_cap := chan_cap c; chan_len := S (chan_len c); chan_closed := chan_closed c |}
  else c.

Definition try_recv (c : chan) : option chan :=
  match chan_len c with
  | S k => Some {| chan_cap := chan_cap c; chan_len := k; chan_closed := chan_closed c |}
  | O => if chan_closed c then Some c else None
  end.

Definition close_chan (c : chan) : option chan :=
  if chan_closed c then None
  else Some {| chan_cap := chan_cap c; chan_len := chan_len c; chan_closed := true |}.

(** ** Program texts

    A Starlark source, as a [string] field or a [[]byte] argument.  The
    programs the display synthesizes with [fmt.Sprintf] are kept as their
    template and its arguments; any other text is [SourceBytes]. *)

Inductive Program : Type :=
| SourceBytes (src : string)
| StartupProgram
| ErrorProgram (appName : string)
| TextProgram (text color : string).

(** ** Package rotation *)

Module rotation.

(** [AppEntry]: an app in the rotation. *)
Module AppEntry.
Record t : Type := mk {
  ID : string;
  Name : string;
  Path : string;
  Config : gmap string string;
  DwellMs : Z;
  Enabled : bool
}.
End AppEntry.

(** [type Priority int] with its four constants. *)
Definition Priority : Type := Z.
Definition PriorityLow : Priority := 0.
Definition PriorityNormal : Priority := 1.
Definition PriorityHigh : Priority := 2.
Definition PrioritySticky : Priority := 3.

(** [Notification]: a temporary display override. *)
Module Notification.
Record t : Type := mk {
  ID : string;
  Text : string;
  AppID : string;
  Source : Program;
  Config : gmap string string;
  Duration : Z;
  Priority : rotation.Priority;
  Created : Z
}.

Definition with_Created (now : Z) (n : t) : t :=
  mk (ID n) (Text n) (AppID n) (Source n) (Config n) (Duration n) (Priority n) now.
End Notification.

(** [Manager]: [onAdvance] records whether a callback is registered
    (non-nil); the callback itself belongs to the display. *)
Record Manager : Type := mkManager {
  apps : list AppEntry.t;
  currentIndex : nat;
  enabled : bool;
  defaultDwell : Z;
  brightness : Z;
  notifyQueue : list Notification.t;
  skipCh : chan;
  updateCh : chan;
  stopCh : chan;
  onAdvance : bool
}.

Definition with_apps (l : list AppEntry.t) (m : Manager) : Manager :=
  mkManager l (currentIndex m) (enabled m) (defaultDwell m) (brightness m)
    (notifyQueue m) (skipCh m) (updateCh m) (stopCh m) (onAdvance m).
Definition with_currentIndex (i : nat) (m : Manager) : Manager :=
  mkManager (apps m) i (enabled m) (defaultDwell m) (brightness m)
    (notifyQueue m) (skipCh m) (updateCh m) (stopCh m) (onAdvance m).
Definition with_enabled (b : bool) (m : Manager) : Manager :=
  mkManager (apps m) (currentIndex m) b (defaultDwell m) (brightness m)
    (notifyQueue m) (skipCh m) (updateCh m) (stopCh m) (onAdvance m).
Definition with_brightness (v : Z) (m : Manager) : Manager :=
  mkManager (apps m) (currentIndex m) (enabled m) (defaultDwell m) v
    (notifyQueue m) (skipCh m) (updateCh m) (stopCh m) (onAdvance m).
Definition with_notifyQueue (q : list Notification.t) (m : Manager) : Manager :=
  mkManager (apps m) (currentIndex m) (enabled m) (defaultDwell m) (brightness m)
    q (skipCh m) (updateCh m) (stopCh m) (onAdvance m).
Definition with_skipCh (c : chan) (m : Manager) : Manager :=
  mkManager (apps m) (currentIndex m) (enabled m) (defaultDwell m) (brightness m)
    (notifyQueue m) c (updateCh m) (stopCh m) (onAdvance m).
Definition with_updateCh (c : chan) (m : Manager) : Manager :=
  mkManager (apps m) (currentIndex m) (enabled m) (defaultDwell m) (brightness m)
    (notifyQueue m) (skipCh m) c (stopCh m) (onAdvance m).
Definition with_stopCh (c : chan) (m : Manager) : Manager :=
  mkManager (apps m) (currentIndex m) (enabled m) (defaultDwell m) (brightness m)
    (notifyQueue m) (skipCh m) (updateCh m) c (onAdvance m).
Definition with_onAdvance (b : bool) (m : Manager) : Manager :=
  mkManager (apps m) (currentIndex m) (enabled m) (defaultDwell m) (brightness m)
    (notifyQueue m) (skipCh m) (updateCh m) (stopCh m) b.

Definition Second : Z := 1000000000.
Definition Millisecond : Z := 1000000.

Definition NewManager (dwell : Z) : Manager :=
  let dwell := if dwell =? 0 then wrap64 (10 * Second) else dwell in
  {| apps := [];
     currentIndex := 0;
     enabled := true;
     defaultDwell := dwell;
     brightness := 80;
     notifyQueue := [];
     skipCh := make_chan 1;
     updateCh := make_chan 1;
     stopCh := make_chan 0;
     onAdvance := false |}.

Definition notifyUpdate (m : Manager) : Manager :=
  with_updateCh (try_send (updateCh m)) m.

Definition SetApps (l : list AppEntry.t) (m : Manager) : Manager :=
  let m := with_apps l m in
  let m := if (length l <=? currentIndex m)%nat then with_currentIndex 0 m else m in
  notifyUpdate m.

Definition GetApps (m : Manager) : list AppEntry.t := apps m.

Definition AddApp (app : AppEntry.t) (m : Manager) : Manager :=
  notifyUpdate (with_apps (apps m ++ [app]) m).

(** The [range] loop of [RemoveApp]: the position of the first entry whose
    [ID] is [id]. *)
Fixpoint find_ID (id : string) (l : list AppEntry.t) (i : nat) : option nat :=
  match l with
  | [] => None
  | app :: rest => if String.eqb (AppEntry.ID app) id then Some i else find_ID id rest (S i)
  end.

Definition RemoveApp (id : string) (m : Manager) : Manager * bool :=
  match find_ID id (apps m) 0 with
  | Some i =>
      let l := take i (apps m) ++ drop (S i) (apps m) in
      let m := with_apps l m in
      let m := if ((length l <=? currentIndex m)%nat && (0 <? length l)%nat)%bool
               then with_currentIndex 0 m else m in
      (notifyUpdate m, true)
  | None => (m, false)
  end.

Definition SetEnabled (b : bool) (m : Manager) : Manager := with_enabled b m.

Definition IsEnabled (m : Manager) : bool := enabled m.

Definition SetBrightness (v : Z) (m : Manager) : Manager :=
  let v := if v <? 0 then 0 else if 100 <? v then 100 else v in
  with_brightness v m.

Definition GetBrightness (m : Manager) : Z := brightness m.

Definition Skip (m : Manager) : Manager := with_skipCh (try_send (skipCh m)) m.

(** The [for] loop of [CurrentApp], entered at iteration [i] with [steps]
    iterations left.  [None] from an out-of-range lookup cannot arise:
    the index is a remainder modulo the length (see [lookup_mod_Some]). *)
Fixpoint CurrentApp_loop (l : list AppEntry.t) (cur i steps : nat) : option AppEntry.t :=
  match steps with
  | O => None
  | S steps' =>
      let idx := ((cur + i) mod length l)%nat in
      match l !! idx with
      | Some app => if AppEntry.Enabled app then Some app
                    else CurrentApp_loop l cur (S i) steps'
      | None => None
      end
  end.

Definition CurrentApp (m : Manager) : option AppEntry.t :=
  if (length (apps m) =? 0)%nat then None
  else CurrentApp_loop (apps m) (currentIndex m) 0 (length (apps m)).

(** The [range] loop of [PushNotification]: insert before the first entry
    that [n] outranks. *)
Fixpoint insert_by_priority (n : Notification.t) (q : list Notification.t)
  : list Notification.t :=
  match q with
  | [] => [n]
  | existing :: rest =>
      if Notification.Priority existing <? Notification.Priority n
      then n :: existing :: rest
      else existing :: insert_by_priority n rest
  end.

Definition PushNotification (now : Z) (n : Notification.t) (m : Manager) : Manager :=
  let n := Notification.with_Created now n in
  notifyUpdate (with_notifyQueue (insert_by_priority n (notifyQueue m)) m).

Definition ClearNotifications (m : Manager) : Manager :=
  with_notifyQueue
    (List.filter (fun n => Notification.Priority n =? PrioritySticky) (notifyQueue m)) m.

Definition OnAdvance (registered : bool) (m : Manager) : Manager :=
  with_onAdvance registered m.

(** The [for] loop of [advance], entered at iteration [i] with [steps]
    iterations left and [cur] the index stored so far. *)
Fixpoint advance_loop (l : list AppEntry.t) (startIdx i steps cur : nat) : nat :=
  match steps with
  | O => cur
  | S steps' =>
      let cur' := ((startIdx + i + 1) mod length l)%nat in
      match l !! cur' with
      | Some app => if AppEntry.Enabled app then cur'
                    else advance_loop l startIdx (S i) steps' cur'
      | None => cur'
      end
  end.

(** [advance] returns the new state and the argument of the callback
    goroutine it starts, if a callback is registered.  On a non-empty list
    [apps[currentIndex]] is read for the log line even without a callback,
    so an out-of-range index is a panic. *)
Definition advance (m : Manager) : option (Manager * option AppEntry.t) :=
  if (length (apps m) =? 0)%nat then Some (m, None)
  else
    let idx := advance_loop (apps m) (currentIndex m) 0 (length (apps m)) (currentIndex m) in
    let m' := with_currentIndex idx m in
    match apps m' !! idx with
    | Some app => Some (m', if onAdvance m' then Some app else None)
    | None => None
    end.

Definition getCurrentDwell (m : Manager) : option Z :=
  if (length (apps m) =? 0)%nat then Some (defaultDwell m)
  else match apps m !! currentIndex m with
       | Some app =>
           if 0 <? AppEntry.DwellMs app
           then Some (wrap64 (AppEntry.DwellMs app * Millisecond))
           else Some (defaultDwell m)
       | None => None
       end.

Definition Stop (m : Manager) : option Manager :=
  c ← close_chan (stopCh m); Some (with_stopCh c m).

(** *** The control loop [Run]

    One iteration of the [for { select { ... } }] loop is one step.  A
    [Wake] names the [select] case that fires and carries the clock
    readings that case takes: [WakeTick now0 now1 now2] reads [now0] when it
    initialises the timer, [now1] for [time.Since] and [now2] after an
    advance.  A step is [None] when the case is not ready (or on a panic). *)

Inductive Wake : Type :=
| WakeStop
| WakeSkip (now : Z)
| WakeUpdate
| WakeTick (now0 now1 now2 : Z).

(** The locals of [Run] next to the manager; [started] lists the arguments
    of the callback goroutines started so far, newest first. *)
Record RunState : Type := mkRun {
  mgr : Manager;
  lastAdvance : Z;
  currentDwell : Z;
  returned : bool;
  started : list AppEntry.t
}.

(** The zero [time.Time] (1 January of year 1) in nanoseconds from the
    Unix epoch, and [time.Since], which saturates. *)
Definition zeroTime : Z := -62135596800 * Second.
Definition maxDuration : Z := 2 ^ 63 - 1.
Definition minDuration : Z := - 2 ^ 63.
Definition Since (now t : Z) : Z := Z.max minDuration (Z.min maxDuration (now - t)).

Definition Run_init (m : Manager) : RunState :=
  {| mgr := m; lastAdvance := zeroTime; currentDwell := 0; returned := false; started := [] |}.

(** [m.advance(); lastAdvance = time.Now(); currentDwell = m.getCurrentDwell()] *)
Definition advance_and_reset (now : Z) (m : Manager) (s : RunState) : option RunState :=
  '(m', cb) ← advance m;
  d ← getCurrentDwell m';
  Some {| mgr := m'; lastAdvance := now; currentDwell := d; returned := false;
          started := option_list cb ++ started s |}.

Definition Run_step (w : Wake) (s : RunState) : option RunState :=
  if returned s then None
  else
    let m := mgr s in
    match w with
    | WakeStop =>
        c ← try_recv (stopCh m);
        Some {| mgr := with_stopCh c m; lastAdvance := lastAdvance s;
                currentDwell := currentDwell s; returned := true; started := started s |}
    | WakeSkip now =>
        c ← try_recv (skipCh m);
        advance_and_reset now (with_skipCh c m) s
    | WakeUpdate =>
        c ← try_recv (updateCh m);
        let m' := with_updateCh c m in
        d ← getCurrentDwell m';
        Some {| mgr := m'; lastAdvance := lastAdvance s; currentDwell := d;
                returned := false; started := started s |}
    | WakeTick now0 now1 now2 =>
        if negb (IsEnabled m) then Some s
        else
          '(d, la) ← (if currentDwell s =? 0
                      then d ← getCurrentDwell m; Some (d, now0)
                      else Some (currentDwell s, lastAdvance s));
          if d <=? Since now1 la
          then advance_and_reset now2 m s
          else Some {| mgr := m; lastAdvance := la; currentDwell := d;
                       returned := false; started := started s |}
    end.

(** The calls the display layer makes on a manager, and their effect. *)
Inductive Call : Type :=
| CallSetApps (l : list AppEntry.t)
| CallAddApp (app : AppEntry.t)
| CallRemoveApp (id : string)
| CallSetEnabled (b : bool)
| CallSetBrightness (v : Z)
| CallSkip
| CallPushNotification (now : Z) (n : Notification.t)
| CallClearNotifications
| CallOnAdvance (registered : bool)
| CallStop.

Definition call (c : Call) (m : Manager) : option Manager :=
  match c with
  | CallSetApps l => Some (SetApps l m)
  | CallAddApp app => Some (AddApp app m)
  | CallRemoveApp id => Some (fst (RemoveApp id m))
  | CallSetEnabled b => Some (SetEnabled b m)
  | CallSetBrightness v => Some (SetBrightness v m)
  | CallSkip => Some (Skip m)
  | CallPushNotification now n => Some (PushNotification now n m)
  | CallClearNotifications => Some (ClearNotifications m)
  | CallOnAdvance b => Some (OnAdvance b m)
  | CallStop => Stop m
  end.

(** An interleaving of calls and loop iterations. *)
Inductive Event : Type :=
| ECall (c : Call)
| EWake (w : Wake).

Definition step (e : Event) (s : RunState) : option RunState :=
  match e with
  | ECall c =>
      m' ← call c (mgr s);
      Some {| mgr := m'; lastAdvance := lastAdvance s; currentDwell := currentDwell s;
              returned := returned s; started := started s |}
  | EWake w => Run_step w s
  end.

Fixpoint exec (evs : list Event) (s : RunState) : option RunState :=
  match evs with
  | [] => Some s
  | e :: evs' => s' ← step e s; exec evs' s'
  end.

Definition is_skip_wake (e : Event) : bool :=
  match e with EWake (WakeSkip _) => true | _ => false end.

Definition is_skip_call (e : Event) : bool :=
  match e with ECall CallSkip => true | _ => false end.

End rotation.

(** ** Errors

    A Go [error] value, by the place that builds it. *)

Inductive error : Type :=
| ErrAppNotInstalled (appID : string)     (* "app %q not installed" *)
| ErrAppNotInRotation (appID : string)    (* "app %q not in rotation" *)
| ErrConfigPathNotSet                     (* "config path not set" *)
| ErrConfigIO (msg : string)              (* creating directory, marshaling, writing *)
| ErrRender (msg : string).               (* any failure of the renderer *)

(** ** Package pixlet *)

Module pixlet.

(** An [image.Image] as [ImagesToRGB] uses it: the size of its bounds and
    the 16-bit [R], [G], [B] channels of [At(x, y).RGBA()]. *)
Record Image : Type := mkImage {
  Dx : nat;
  Dy : nat;
  RGBA : nat -> nat -> Z * Z * Z
}.

Module Frame.
Record t : Type := mk {
  Images : list Image;
  DelayMs : Z;
  MaxAge : Z;
  AppName : string;
  Width : Z;
  Height : Z
}.
End Frame.

(** [Renderer]: the two rendering methods run the external Pixlet runtime
    (and the file system); they are fields of the model. *)
Record Renderer : Type := mkRenderer {
  width : Z;
  height : Z;
  timeout : Z;
  RenderApp : string -> gmap string string -> Frame.t + error;
  RenderAppFromSource : string -> Program -> gmap string string -> Frame.t + error
}.

Definition NewRenderer (w h : Z)
    (run_file : string -> gmap string string -> Frame.t + error)
    (run_source : string -> Program -> gmap string string -> Frame.t + error) : Renderer :=
  {| width := w; height := h; timeout := 30 * rotation.Second;
     RenderApp := run_file; RenderAppFromSource := run_source |}.

(** [byte(v >> 8)] for a [uint32] channel value. *)
Definition to_byte (v : Z) : Z := v mod 256.

Definition pixel_bytes (img : Image) (x y : nat) : list Z :=
  let '(r, g, b) := RGBA img x y in
  [to_byte (Z.shiftr r 8); to_byte (Z.shiftr g 8); to_byte (Z.shiftr b 8)].

(** Every frame is read over the bounds of the first image. *)
Definition ImagesToRGB (images : list Image) : list Z :=
  match images with
  | [] => []
  | first :: _ =>
      flat_map (fun img =>
        flat_map (fun y =>
          flat_map (fun x => pixel_bytes img x y) (seq 0 (Dx first)))
          (seq 0 (Dy first)))
        images
  end.

End pixlet.

(** ** Package apps *)

Module apps.

Module App.
Record t : Type := mk {
  ID : string;
  Name : string;
  Summary : string;
  Description : string;
  Author : string;
  Category : string;
  Path : string;
  Config : gmap string string;
  SchemaJSON : string;
  Source : string;
  Installed : Z
}.
End App.

(** [Repository]: the community index plays no part in the display core
    and is left out. *)
Record Repository : Type := mkRepository {
  dataDir : string;
  appsDir : string;
  installed : gmap string App.t
}.

(** [Get] returns [r.installed[id]], [nil] for an unknown id. *)
Definition Get (id : string) (r : Repository) : option App.t := installed r !! id.

End apps.

(** ** Package config *)

Module config.

Record Config : Type := mkConfig {
  path : string;
  Port : string;
  LogLevel : string;
  DefaultWidth : Z;
  DefaultHeight : Z;
  DefaultDwell : Z;
  Brightness : Z;
  RotationEnabled : bool;
  Apps : list rotation.AppEntry.t;
  PowerOn : bool
}.


Definition with_Brightness (v : Z) (c : Config) : Config :=
  mkConfig (path c) (Port c) (LogLevel c) (DefaultWidth c) (DefaultHeight c)
    (DefaultDwell c) v (RotationEnabled c) (Apps c) (PowerOn c).
Definition with_PowerOn (b : bool) (c : Config) : Config :=
  mkConfig (path c) (Port c) (LogLevel c) (DefaultWidth c) (DefaultHeight c)
    (DefaultDwell c) (Brightness c) (RotationEnabled c) (Apps c) b.
Definition with_RotationEnabled (b : bool) (c : Config) : Config :=
  mkConfig (path c) (Port c) (LogLevel c) (DefaultWidth c) (DefaultHeight c)
    (DefaultDwell c) (Brightness c) b (Apps c) (PowerOn c).
Definition with_Apps (l : list rotation.AppEntry.t) (c : Config) : Config :=
  mkConfig (path c) (Port c) (LogLevel c) (DefaultWidth c) (DefaultHeight c)
    (DefaultDwell c) (Brightness c) (RotationEnabled c) l (PowerOn c).

(** What the operating system answers to the [MkdirAll], [MarshalIndent],
    [WriteFile] sequence of one [Save]. *)
Inductive IO : Type :=
| IOok
| IOfail (msg : string).

(** The configuration in memory together with the content of its file as
    last written ([None]: never written).  A failed [Save] is taken to
    leave the file as it was. *)
Record Store : Type := mkStore {
  mem : Config;
  file : option Config
}.

Definition Save (io : IO) (s : Store) : Store * option error :=
  if String.eqb (path (mem s)) String.EmptyString then (s, Some ErrConfigPathNotSet)
  else match io with
       | IOok => ({| mem := mem s; file := Some (mem s) |}, None)
       | IOfail msg => (s, Some (ErrConfigIO msg))
       end.

Definition update (f : Config -> Config) (s : Store) : Store :=
  {| mem := f (mem s); file := file s |}.

Definition SetBrightness (v : Z) (io : IO) (s : Store) : Store * option error :=
  Save io (update (with_Brightness v) s).

Definition SetPower (on : bool) (io : IO) (s : Store) : Store * option error :=
  Save io (update (with_PowerOn on) s).

Definition SetRotationEnabled (b : bool) (io : IO) (s : Store) : Store * option error :=
  Save io (update (with_RotationEnabled b) s).

Definition SetApps (l : list rotation.AppEntry.t) (io : IO) (s : Store) : Store * option error :=
  Save io (update (with_Apps l) s).

Definition GetApps (s : Store) : list rotation.AppEntry.t := Apps (mem s).

End config.

(** ** Package display *)

Module display.

Module FrameData.
Record t : Type := mk {
  Pixels : list Z;
  Width : Z;
  Height : Z;
  FrameCount : Z;
  DelayMs : Z;
  DwellSecs : Z;
  Brightness : Z;
  AppName : string;
  UpdatedAt : Z
}.
End FrameData.

Record Display : Type := mkDisplay {
  ID : string;
  Name : string;
  Width : Z;
  Height : Z;
  ClientType : string;
  config : config.Store;
  apps : apps.Repository;
  rotation : rotation.Manager;
  renderer : pixlet.Renderer;
  currentFrame : option FrameData.t;
  stopCh : chan
}.

Definition with_config (c : config.Store) (d : Display) : Display :=
  mkDisplay (ID d) (Name d) (Width d) (Height d) (ClientType d) c (apps d)
    (rotation d) (renderer d) (currentFrame d) (stopCh d).
Definition with_rotation (m : rotation.Manager) (d : Display) : Display :=
  mkDisplay (ID d) (Name d) (Width d) (Height d) (ClientType d) (config d) (apps d)
    m (renderer d) (currentFrame d) (stopCh d).
Definition with_currentFrame (f : option FrameData.t) (d : Display) : Display :=
  mkDisplay (ID d) (Name d) (Width d) (Height d) (ClientType d) (config d) (apps d)
    (rotation d) (renderer d) f (stopCh d).
Definition with_stopCh (c : chan) (d : Display) : Display :=
  mkDisplay (ID d) (Name d) (Width d) (Height d) (ClientType d) (config d) (apps d)
    (rotation d) (renderer d) (currentFrame d) c.

(** [make([]byte, n)]: a zeroed buffer, a panic for a negative length. *)
Definition make_bytes (n : Z) : option (list Z) :=
  if n <? 0 then None else Some (replicate (Z.to_nat n) 0).

(** [d.Width*d.Height*3] *)
Definition buffer_len (d : Display) : Z := wrap64 (wrap64 (Width d * Height d) * 3).

(** [pixels[i] = b], a panic out of range. *)
Definition store (i b : Z) (px : list Z) : option (list Z) :=
  if ((0 <=? i) && (i <? Z.of_nat (length px)))%bool
  then Some (<[Z.to_nat i := b]> px) else None.

Definition setFrame (now : Z) (frame : pixlet.Frame.t) (pixels : list Z) (d : Display) : Display :=
  let frameCount :=
    if (0 <? length (pixlet.Frame.Images frame))%nat
    then Z.of_nat (length (pixlet.Frame.Images frame)) else 1 in
  with_currentFrame
    (Some {| FrameData.Pixels := pixels;
             FrameData.Width := Width d;
             FrameData.Height := Height d;
             FrameData.FrameCount := frameCount;
             FrameData.DelayMs := pixlet.Frame.DelayMs frame;
             FrameData.DwellSecs := Z.quot (config.DefaultDwell (config.mem (config d))) 1000;
             FrameData.Brightness := rotation.GetBrightness (rotation d);
             FrameData.AppName := pixlet.Frame.AppName frame;
             FrameData.UpdatedAt := now |}) d.

Definition RenderSource (now : Z) (appID : string) (source : Program)
    (cfg : gmap string string) (d : Display) : Display * option error :=
  match pixlet.RenderAppFromSource (renderer d) appID source cfg with
  | inr err => (d, Some err)
  | inl frame => (setFrame now frame (pixlet.ImagesToRGB (pixlet.Frame.Images frame)) d, None)
  end.

Definition renderStartupScreen (now : Z) (d : Display) : Display :=
  fst (RenderSource now "startup" StartupProgram ∅ d).

(** The synthesized program names the app only; [err] is not used. *)
Definition renderErrorScreen (now : Z) (appName : string) (err : error) (d : Display) : Display :=
  fst (RenderSource now "error" (ErrorProgram appName) ∅ d).

Definition renderApp (now : Z) (app : rotation.AppEntry.t) (d : Display) : Display :=
  match pixlet.RenderApp (renderer d) (rotation.AppEntry.Path app) (rotation.AppEntry.Config app) with
  | inr err => renderErrorScreen now (rotation.AppEntry.Name app) err d
  | inl frame => setFrame now frame (pixlet.ImagesToRGB (pixlet.Frame.Images frame)) d
  end.

Definition renderBlankScreen (now : Z) (d : Display) : option Display :=
  pixels ← make_bytes (buffer_len d);
  Some (with_currentFrame
    (Some {| FrameData.Pixels := pixels;
             FrameData.Width := Width d;
             FrameData.Height := Height d;
             FrameData.FrameCount := 1;
             FrameData.DelayMs := 50;
             FrameData.DwellSecs := 0;
             FrameData.Brightness := 0;
             FrameData.AppName := "off";
             FrameData.UpdatedAt := now |}) d).

(** The inner and outer loops of [generateTestPattern], with [steps]
    iterations left. *)
Fixpoint pattern_row (W H y x : Z) (steps : nat) (px : list Z) : option (list Z) :=
  match steps with
  | O => Some px
  | S k =>
      let idx := wrap64 (wrap64 (wrap64 (y * W) + x) * 3) in
      px ← store idx (pixlet.to_byte (Z.quot (wrap64 (x * 255)) W)) px;
      px ← store (idx + 1) (pixlet.to_byte (Z.quot (wrap64 (y * 255)) H)) px;
      px ← store (idx + 2) 128 px;
      pattern_row W H y (x + 1) k px
  end.

Fixpoint pattern_rows (W H y : Z) (steps : nat) (px : list Z) : option (list Z) :=
  match steps with
  | O => Some px
  | S k => px ← pattern_row W H y 0 (Z.to_nat W) px; pattern_rows W H (y + 1) k px
  end.

Definition generateTestPattern (now : Z) (d : Display) : option FrameData.t :=
  pixels ← make_bytes (buffer_len d);
  pixels ← pattern_rows (Width d) (Height d) 0 (Z.to_nat (Height d)) pixels;
  Some {| FrameData.Pixels := pixels;
          FrameData.Width := Width d;
          FrameData.Height := Height d;
          FrameData.FrameCount := 1;
          FrameData.DelayMs := 50;
          FrameData.DwellSecs := 0;
          FrameData.Brightness := 80;
          FrameData.AppName := "test-pattern";
          FrameData.UpdatedAt := now |}.

Definition GetFrame (now : Z) (d : Display) : option FrameData.t :=
  match currentFrame d with
  | None => generateTestPattern now d
  | Some f =>
      Some {| FrameData.Pixels := FrameData.Pixels f;
              FrameData.Width := FrameData.Width f;
              FrameData.Height := FrameData.Height f;
              FrameData.FrameCount := FrameData.FrameCount f;
              FrameData.DelayMs := FrameData.DelayMs f;
              FrameData.DwellSecs := Z.quot (config.DefaultDwell (config.mem (config d))) 1000;
              FrameData.Brightness := rotation.GetBrightness (rotation d);
              FrameData.AppName := FrameData.AppName f;
              FrameData.UpdatedAt := FrameData.UpdatedAt f |}
  end.

(** [persist] threads the result of a [config] setter back into the display. *)
Definition persist (r : config.Store * option error) (d : Display) : Display * option error :=
  (with_config (fst r) d, snd r).

Definition SetBrightness (v : Z) (io : config.IO) (d : Display) : Display * option error :=
  let d := with_rotation (rotation.SetBrightness v (rotation d)) d in
  persist (config.SetBrightness v io (config d)) d.

Definition GetBrightness (d : Display) : Z := rotation.GetBrightness (rotation d).

Definition SetPower (on : bool) (now : Z) (io : config.IO) (d : Display)
  : option (Display * option error) :=
  d' ← (if negb on
        then renderBlankScreen now (with_rotation (rotation.SetEnabled false (rotation d)) d)
        else
          let d := with_rotation
                     (rotation.SetEnabled (config.RotationEnabled (config.mem (config d)))
                        (rotation d)) d in
          match rotation.CurrentApp (rotation d) with
          | Some app => Some (renderApp now app d)
          | None => Some (renderStartupScreen now d)
          end);
  Some (persist (config.SetPower on io (config d')) d').


Definition SetRotationEnabled (b : bool) (io : config.IO) (d : Display) : Display * option error :=
  let d := with_rotation (rotation.SetEnabled b (rotation d)) d in
  persist (config.SetRotationEnabled b io (config d)) d.

Definition IsRotationEnabled (d : Display) : bool := rotation.IsEnabled (rotation d).

Definition Skip (d : Display) : Display := with_rotation (rotation.Skip (rotation d)) d.

Definition GetRotationApps (d : Display) : list rotation.AppEntry.t :=
  rotation.GetApps (rotation d).

Definition SetRotationApps (l : list rotation.AppEntry.t) (io : config.IO) (d : Display)
  : Display * option error :=
  let d := with_rotation (rotation.SetApps l (rotation d)) d in
  persist (config.SetApps l io (config d)) d.

Definition AddToRotation (appID : string) (io : config.IO) (d : Display) : Display * option error :=
  match apps.Get appID (apps d) with
  | None => (d, Some (ErrAppNotInstalled appID))
  | Some app =>
      let entry := rotation.AppEntry.mk appID (apps.App.Name app) (apps.App.Path app)
                     (apps.App.Config app) 0 true in
      let d := with_rotation (rotation.AddApp entry (rotation d)) d in
      persist (config.SetApps (rotation.GetApps (rotation d)) io (config d)) d
  end.

Definition RemoveFromRotation (appID : string) (io : config.IO) (d : Display)
  : Display * option error :=
  let '(m, found) := rotation.RemoveApp appID (rotation d) in
  if negb found then (d, Some (ErrAppNotInRotation appID))
  else
    let d := with_rotation m d in
    persist (config.SetApps (rotation.GetApps (rotation d)) io (config d)) d.

(** The goroutine [ShowApp] starts: sleep, then [SetEnabled(wasEnabled)]. *)
Inductive Task : Type :=
| RestoreEnabled (sleep : Z) (wasEnabled : bool).

Definition run_task (t : Task) (d : Display) : Display :=
  match t with
  | RestoreEnabled _ wasEnabled =>
      with_rotation (rotation.SetEnabled wasEnabled (rotation d)) d
  end.

Definition ShowApp (appID : string) (durationSecs : Z) (now : Z) (d : Display)
  : Display * option error * option Task :=
  match apps.Get appID (apps d) with
  | None => (d, Some (ErrAppNotInstalled appID), None)
  | Some app =>
      let wasEnabled := rotation.IsEnabled (rotation d) in
      let d := with_rotation (rotation.SetEnabled false (rotation d)) d in
      let entry := rotation.AppEntry.mk appID (apps.App.Name app) (apps.App.Path app)
                     (apps.App.Config app) 0 false in
      let d := renderApp now entry d in
      (d, None,
       if 0 <? durationSecs
       then Some (RestoreEnabled (wrap64 (durationSecs * rotation.Second)) wasEnabled)
       else None)
  end.

Definition PushText (text color : string) (durationSecs : Z) (priority : rotation.Priority)
    (now : Z) (d : Display) : Display :=
  let color := if String.eqb color String.EmptyString then "#fff" else color in
  let source := TextProgram text color in
  let notification :=
    rotation.Notification.mk ("text-" +:+ pretty now) text String.EmptyString
      source ∅ (wrap64 (durationSecs * rotation.Second)) priority 0 in
  let d := with_rotation (rotation.PushNotification now notification (rotation d)) d in
  fst (RenderSource now "notification" source ∅ d).

Definition NewDisplay (id name : string) (w h : Z) (cfg : config.Store)
    (appRepo : apps.Repository)
    (run_file : string -> gmap string string -> pixlet.Frame.t + error)
    (run_source : string -> Program -> gmap string string -> pixlet.Frame.t + error)
    (now : Z) : Display :=
  let m := rotation.NewManager
             (wrap64 (config.DefaultDwell (config.mem cfg) * rotation.Millisecond)) in
  let m := rotation.SetEnabled (config.RotationEnabled (config.mem cfg)) m in
  let m := rotation.SetBrightness (config.Brightness (config.mem cfg)) m in
  let m := rotation.SetApps (config.GetApps cfg) m in
  let m := rotation.OnAdvance true m in
  renderStartupScreen now
    {| ID := id; Name := name; Width := w; Height := h; ClientType := String.EmptyString;
       config := cfg; apps := appRepo; rotation := m;
       renderer := pixlet.NewRenderer w h run_file run_source;
       currentFrame := None; stopCh := make_chan 0 |}.

(** [Start]: the loop goroutine is the [RunState] of package rotation. *)
Definition Start (now : Z) (d : Display) : Display :=
  match rotation.CurrentApp (rotation d) with
  | Some app => renderApp now app d
  | None => d
  end.

Definition Stop (d : Display) : option Display :=
  m ← rotation.Stop (rotation d);
  c ← close_chan (stopCh d);
  Some (with_stopCh c (with_rotation m d)).

End display.

(** * Vocabulary of the properties *)

(** A channel never holds more than its capacity. *)
Definition chan_ok (c : chan) : Prop := (chan_len c <= chan_cap c)%nat.

(** The index invariant of the data model: the current index is inside
    the list, or the list is empty. *)
Definition index_ok (m : rotation.Manager) : Prop :=
  (rotation.currentIndex m < length (rotation.apps m))%nat \/ rotation.apps m = [].

(** A rotation whose only entry is disabled, with a callback registered. *)
Definition app_off : rotation.AppEntry.t :=
  rotation.AppEntry.mk "a" "A" "a.star" ∅ 0 false.

Definition manager_off : rotation.Manager :=
  rotation.OnAdvance true (rotation.SetApps [app_off] (rotation.NewManager 0)).

(** Descending priority: [a] may stand before [b]. *)
Definition prio_ge (a b : rotation.Notification.t) : Prop :=
  rotation.Notification.Priority b <= rotation.Notification.Priority a.

Definition has_prio (p : Z) (n : rotation.Notification.t) : bool :=
  rotation.Notification.Priority n =? p.

(** A sequence of pushes, each with the clock reading it takes. *)
Definition push_all (ps : list (Z * rotation.Notification.t)) (m : rotation.Manager)
  : rotation.Manager :=
  fold_left (fun m p => rotation.PushNotification (fst p) (snd p) m) ps m.

Definition stamped (ps : list (Z * rotation.Notification.t)) : list rotation.Notification.t :=
  List.map (fun p => rotation.Notification.with_Created (fst p) (snd p)) ps.

(** What every manager reached from [NewManager] satisfies: the index is
    inside the list (0 on an empty list), the brightness is a percentage,
    the skip slot is an open channel of capacity 1 holding at most one
    token, and the queue is in descending priority order. *)
Record manager_inv (m : rotation.Manager) : Prop := mkInv {
  inv_index : (rotation.currentIndex m < length (rotation.apps m))%nat \/
              (rotation.apps m = [] /\ rotation.currentIndex m = 0%nat);
  inv_brightness : 0 <= rotation.brightness m <= 100;
  inv_skip_cap : chan_cap (rotation.skipCh m) = 1%nat;
  inv_skip_len : chan_ok (rotation.skipCh m);
  inv_skip_open : chan_closed (rotation.skipCh m) = false;
  inv_queue : StronglySorted prio_ge (rotation.notifyQueue m)
}.

Definition count {A} (f : A -> bool) (l : list A) : nat := length (List.filter f l).

(** A 64x32 display on the default configuration loaded from
    [/data/config.json], with no app installed and a runtime that paints
    one black image for every program. *)
Definition black_image : pixlet.Image := pixlet.mkImage 64 32 (fun _ _ => (0, 0, 0)).

Definition paint_black (name : string) : pixlet.Frame.t + error :=
  inl (pixlet.Frame.mk [black_image] 50 0 name 64 32).

Definition default_store : config.Store :=
  {| config.mem := config.mkConfig "/data/config.json" "8176" "info" 64 32 10000 80 true [] true;
     config.file := None |}.

Definition default_display : display.Display :=
  display.NewDisplay "default" "default" 64 32 default_store
    (apps.mkRepository "/data" "/data/apps" ∅)
    (fun path _ => paint_black path) (fun appID _ _ => paint_black appID) 0.

(** The rotation of the worked scenario: [a] and [c] enabled, [b]
    disabled, [c] with its own dwell of 2000 ms, default dwell 5000 ms. *)
Definition scenario_apps : list rotation.AppEntry.t :=
  [ rotation.AppEntry.mk "a" "A" "a.star" ∅ 0 true;
    rotation.AppEntry.mk "b" "B" "b.star" ∅ 0 false;
    rotation.AppEntry.mk "c" "C" "c.star" ∅ 2000 true ].

Definition scenario : rotation.RunState :=
  rotation.Run_init
    (rotation.SetApps scenario_apps (rotation.NewManager (5000 * rotation.Millisecond))).

Definition note (id : string) (p : rotation.Priority) : rotation.Notification.t :=
  rotation.Notification.mk id id String.EmptyString (SourceBytes String.EmptyString) ∅ 0 p 0.

(** The update slot is an open channel of capacity 1 holding at most one
    token; the stop channel is unbuffered and never sent on. *)
Record channels_inv (m : rotation.Manager) : Prop := mkChannelsInv {
  inv_update_cap : chan_cap (rotation.updateCh m) = 1%nat;
  inv_update_len : chan_ok (rotation.updateCh m);
  inv_update_open : chan_closed (rotation.updateCh m) = false;
  inv_stop_len : chan_len (rotation.stopCh m) = 0%nat
}.

Definition is_update_wake (e : rotation.Event) : bool :=
  match e with rotation.EWake rotation.WakeUpdate => true | _ => false end.

(** The calls that can send the update signal. *)
Definition signals_update (e : rotation.Event) : bool :=
  match e with
  | rotation.ECall (rotation.CallSetApps _)
  | rotation.ECall (rotation.CallAddApp _)
  | rotation.ECall (rotation.CallRemoveApp _)
  | rotation.ECall (rotation.CallPushNotification _ _) => true
  | _ => false
  end.


Definition is_sticky (n : rotation.Notification.t) : bool :=
  rotation.Notification.Priority n =? rotation.PrioritySticky.

(** The byte [ImagesToRGB] writes for channel [c] (0 red, 1 green, 2 blue)
    of the pixel [(x, y)] of an image. *)
Definition channel_byte (img : pixlet.Image) (x y c : nat) : Z :=
  let '(r, g, b) := pixlet.RGBA img x y in
  match c with
  | O => pixlet.to_byte (Z.shiftr r 8)
  | S O => pixlet.to_byte (Z.shiftr g 8)
  | _ => pixlet.to_byte (Z.shiftr b 8)
  end.

(** What can happen to a display once it is built: a call of the request
    layer, a restoration goroutine of [ShowApp] reaching its end, the
    advance callback rendering an entry, and one iteration of the control
    loop, taken with whatever values its local timer variables hold. *)
Inductive DisplayEvent : Type :=
| DoSetBrightness (v : Z) (io : config.IO)
| DoSetPower (on : bool) (now : Z) (io : config.IO)
| DoSetRotationEnabled (b : bool) (io : config.IO)
| DoSkip
| DoSetRotationApps (l : list rotation.AppEntry.t) (io : config.IO)
| DoAddToRotation (appID : string) (io : config.IO)
| DoRemoveFromRotation (appID : string) (io : config.IO)
| DoShowApp (appID : string) (durationSecs now : Z)
| DoRunTask (t : display.Task)
| DoPushText (text color : string) (durationSecs : Z) (priority : rotation.Priority) (now : Z)
| DoRenderSource (now : Z) (appID : string) (source : Program) (cfg : gmap string string)
| DoStart (now : Z)
| DoCallback (now : Z) (app : rotation.AppEntry.t)
| DoLoop (w : rotation.Wake) (lastAdvance currentDwell : Z)
| DoStop.

Definition display_step (e : DisplayEvent) (d : display.Display) : option display.Display :=
  match e with
  | DoSetBrightness v io => Some (fst (display.SetBrightness v io d))
  | DoSetPower on now io => fst <$> display.SetPower on now io d
  | DoSetRotationEnabled b io => Some (fst (display.SetRotationEnabled b io d))
  | DoSkip => Some (display.Skip d)
  | DoSetRotationApps l io => Some (fst (display.SetRotationApps l io d))
  | DoAddToRotation appID io => Some (fst (display.AddToRotation appID io d))
  | DoRemoveFromRotation appID io => Some (fst (display.RemoveFromRotation appID io d))
  | DoShowApp appID durationSecs now => Some (fst (fst (display.ShowApp appID durationSecs now d)))
  | DoRunTask t => Some (display.run_task t d)
  | DoPushText text color durationSecs priority now =>
      Some (display.PushText text color durationSecs priority now d)
  | DoRenderSource now appID source cfg => Some (fst (display.RenderSource now appID source cfg d))
  | DoStart now => Some (display.Start now d)
  | DoCallback now app => Some (display.renderApp now app d)
  | DoLoop w lastAdvance currentDwell =>
      s' ← rotation.Run_step w
             {| rotation.mgr := display.rotation d; rotation.lastAdvance := lastAdvance;
                rotation.currentDwell := currentDwell; rotation.returned := false;
                rotation.started := [] |};
      Some (display.with_rotation (rotation.mgr s') d)
  | DoStop => display.Stop d
  end.

Fixpoint display_exec (es : list DisplayEvent) (d : display.Display) : option display.Display :=
  match es with
  | [] => Some d
  | e :: es' => d' ← display_step e d; display_exec es' d'
  end.


(** Two displays that differ at most in their renderer and in the frame
    they show. *)
Definition same_but_rendering (d1 d2 : display.Display) : Prop :=
  display.ID d1 = display.ID d2 /\ display.Name d1 = display.Name d2 /\
  display.Width d1 = display.Width d2 /\ display.Height d1 = display.Height d2 /\
  display.ClientType d1 = display.ClientType d2 /\
  display.config d1 = display.config d2 /\ display.apps d1 = display.apps d2 /\
  display.rotation d1 = display.rotation d2 /\ display.stopCh d1 = display.stopCh d2.

(** * Properties *)

(** ** Arithmetic and channels *)


Lemma try_send_ok c : chan_ok c -> chan_ok (try_send c).
Proof.
  unfold chan_ok, try_send. intros Hc.
  destruct (Nat.ltb_spec (chan_len c) (chan_cap c)); simpl; lia.
Qed.

Lemma try_recv_ok c c' : chan_ok c -> try_recv c = Some c' -> chan_ok c'.
Proof.
  unfold chan_ok, try_recv. intros Hc Hr.
  destruct (chan_len c) eqn:E.
  - destruct (chan_closed c); inversion Hr; subst; lia.
  - inversion Hr; subst; simpl; lia.
Qed.

Lemma try_send_full c : chan_len c = chan_cap c -> try_send c = c.
Proof.
  intros E. unfold try_send. rewrite E, Nat.ltb_irrefl. reflexivity.
Qed.

Lemma try_send_cap c : chan_cap (try_send c) = chan_cap c.
Proof. unfold try_send. destruct (_ <? _)%nat; reflexivity. Qed.

Lemma try_send_twice c : chan_cap c = 1%nat -> try_send (try_send c) = try_send c.
Proof.
  intros Hcap. destruct (Nat.ltb_spec (chan_len c) (chan_cap c)) as [Hlt | Hge].
  - apply try_send_full. rewrite try_send_cap. unfold try_send.
    destruct (Nat.ltb_spec (chan_len c) (chan_cap c)); simpl; lia.
  - assert (E : try_send c = c).
    { unfold try_send. destruct (Nat.ltb_spec (chan_len c) (chan_cap c)); [lia | reflexivity]. }
    rewrite !E. reflexivity.
Qed.

(** ** Lists scanned from a rotating index *)

Lemma rotate_nat_add_mod (c i n : nat) : rotate_nat_add c i n = ((c + i) mod n)%nat.
Proof.
  unfold rotate_nat_add.
  rewrite <- Nat2Z.inj_add, <- Nat2Z.inj_mod. apply Nat2Z.id.
Qed.

Lemma lookup_rotate_mod {A} (l : list A) (c i : nat) :
  (i < length l)%nat -> rotate c l !! i = l !! ((c + i) mod length l)%nat.
Proof.
  intros Hi. rewrite lookup_rotate_r by exact Hi. now rewrite rotate_nat_add_mod.
Qed.

Lemma lookup_mod_Some {A} (l : list A) (k : nat) :
  l <> [] -> is_Some (l !! (k mod length l)%nat).
Proof.
  intros Hl. apply lookup_lt_is_Some. apply Nat.mod_upper_bound.
  destruct l; [congruence | simpl; lia].
Qed.

(** [List.find] returns the first element that passes the test. *)
Lemma find_first {A} (f : A -> bool) (l : list A) (x : A) :
  List.find f l = Some x ->
  f x = true /\
  exists i, l !! i = Some x /\
            forall j, (j < i)%nat -> exists y, l !! j = Some y /\ f y = false.
Proof.
  induction l as [| a l IH]; simpl; [discriminate |].
  destruct (f a) eqn:Fa.
  - intros [= ->]. split; [exact Fa |]. exists 0%nat. split; [reflexivity |]. lia.
  - intros Hx. destruct (IH Hx) as (Hfx & i & Hi & Hmin). split; [exact Hfx |].
    exists (S i). split; [exact Hi |].
    intros [| j] Hj; [exists a; auto |].
    apply Hmin. lia.
Qed.

Lemma find_None_Forall {A} (f : A -> bool) (l : list A) :
  List.find f l = None <-> Forall (fun x => f x = false) l.
Proof.
  induction l as [| a l IH]; simpl.
  - split; [constructor | reflexivity].
  - destruct (f a) eqn:Fa.
    + split; [discriminate |]. intros H. apply Forall_cons in H as [H _]. congruence.
    + rewrite IH. split; [now constructor |]. intros H. now apply Forall_cons in H as [_ H].
Qed.

(** ** [CurrentApp] *)

(** The loop of [CurrentApp], from iteration [i] on, is a search through
    the list rotated to start at the current index. *)
Lemma CurrentApp_loop_find (l : list rotation.AppEntry.t) (cur : nat) :
  forall steps i, (i + steps <= length l)%nat ->
    rotation.CurrentApp_loop l cur i steps =
    List.find rotation.AppEntry.Enabled (take steps (drop i (rotate cur l))).
Proof.
  induction steps as [| k IH]; intros i Hi; simpl.
  - reflexivity.
  - assert (Hlt : (i < length l)%nat) by lia.
    rewrite <- (lookup_rotate_mod l cur i Hlt).
    destruct (lookup_lt_is_Some_2 (rotate cur l) i) as [a Ha].
    { rewrite length_rotate. exact Hlt. }
    rewrite Ha, (drop_S _ _ _ Ha). simpl.
    destruct (rotation.AppEntry.Enabled a); [reflexivity |].
    apply IH. lia.
Qed.

Lemma CurrentApp_find (m : rotation.Manager) :
  rotation.CurrentApp m =
  List.find rotation.AppEntry.Enabled (rotate (rotation.currentIndex m) (rotation.apps m)).
Proof.
  unfold rotation.CurrentApp.
  destruct (Nat.eqb_spec (length (rotation.apps m)) 0) as [E | E].
  - apply length_zero_iff_nil in E. rewrite E. unfold rotate.
    now rewrite drop_nil, take_nil.
  - rewrite CurrentApp_loop_find by lia.
    rewrite drop_0, take_ge; [reflexivity | rewrite length_rotate; lia].
Qed.

(** C3. [CurrentApp] scans forward from the current index, wrapping, for
    at most [len(apps)] steps and returns the first enabled entry: its
    result is the first enabled entry of the list rotated to start at the
    current index; a returned entry is enabled and sits at offset
    [i < len(apps)] from the current index with every entry at a smaller
    offset disabled; the result is none on an empty list, and it is none
    exactly when no entry is enabled. *)
Theorem CurrentApp_first_enabled (m : rotation.Manager) :
  let l := rotation.apps m in
  let cur := rotation.currentIndex m in
  rotation.CurrentApp m = List.find rotation.AppEntry.Enabled (rotate cur l)
  /\ (forall app, rotation.CurrentApp m = Some app ->
        rotation.AppEntry.Enabled app = true /\
        exists i, (i < length l)%nat /\
          l !! ((cur + i) mod length l)%nat = Some app /\
          forall j, (j < i)%nat ->
            exists other, l !! ((cur + j) mod length l)%nat = Some other /\
                          rotation.AppEntry.Enabled other = false)
  /\ (l = [] -> rotation.CurrentApp m = None)
  /\ (rotation.CurrentApp m = None <->
      Forall (fun app => rotation.AppEntry.Enabled app = false) l).
Proof.
  intros l cur. split; [apply CurrentApp_find |]. split; [| split].
  - intros app Happ. rewrite CurrentApp_find in Happ.
    apply find_first in Happ as (Hen & i & Hi & Hmin). split; [exact Hen |].
    assert (Hlt : (i < length l)%nat).
    { apply lookup_lt_Some in Hi. now rewrite length_rotate in Hi. }
    exists i. split; [exact Hlt |]. split.
    + now rewrite <- lookup_rotate_mod.
    + intros j Hj. destruct (Hmin j Hj) as (y & Hy & Fy). exists y.
      split; [| exact Fy]. rewrite <- lookup_rotate_mod; [exact Hy | fold l; lia].
  - intros E. unfold rotation.CurrentApp. fold l. rewrite E. reflexivity.
  - rewrite CurrentApp_find, find_None_Forall. fold l cur.
    rewrite !Forall_forall. split; intros H x Hx; apply H.
    + now apply elem_of_rotate.
    + now apply elem_of_rotate in Hx.
Qed.

(** ** [SetApps] *)

Lemma rotate_0 {A} (l : list A) : rotate 0 l = l.
Proof.
  unfold rotate. destruct l as [| a l]; [reflexivity |].
  rewrite Nat.Div0.mod_0_l. simpl. now rewrite app_nil_r.
Qed.

(** C8. [SetApps] replaces the app sequence and touches nothing else but
    the index and the update signal; an index at or past the new length
    is reset to 0 (a smaller one is kept), and after such a reset
    [CurrentApp] is the first enabled entry of the new list from its
    head. *)
Theorem SetApps_resets_index (l : list rotation.AppEntry.t) (m : rotation.Manager) :
  let m' := rotation.SetApps l m in
  rotation.apps m' = l
  /\ rotation.currentIndex m' =
       (if (length l <=? rotation.currentIndex m)%nat then 0%nat else rotation.currentIndex m)
  /\ ((length l <= rotation.currentIndex m)%nat ->
        rotation.currentIndex m' = 0%nat /\
        rotation.CurrentApp m' = List.find rotation.AppEntry.Enabled l)
  /\ m' = rotation.notifyUpdate
            (rotation.with_currentIndex (rotation.currentIndex m') (rotation.with_apps l m)).
Proof.
  intros m'. subst m'. unfold rotation.SetApps. simpl.
  destruct (Nat.leb_spec (length l) (rotation.currentIndex m)) as [Hle | Hgt]; simpl.
  - split; [reflexivity |]. split; [reflexivity |]. split; [| reflexivity].
    intros _. split; [reflexivity |].
    rewrite CurrentApp_find. simpl. now rewrite rotate_0.
  - split; [reflexivity |]. split; [reflexivity |]. split; [| reflexivity].
    intros Hle. lia.
Qed.

(** ** [advance] *)

(** Offsets from any start reach every position of the list. *)
Lemma mod_offset_onto (s p n : nat) :
  (p < n)%nat -> exists j, (j < n)%nat /\ ((s + j) mod n)%nat = p.
Proof.
  intros Hp. pose proof (Nat.mod_upper_bound s n ltac:(lia)) as Hs.
  destruct (le_lt_dec (s mod n) p) as [Hle | Hlt].
  - exists (p - s mod n)%nat. split; [lia |].
    rewrite <- Nat.Div0.add_mod_idemp_l.
    replace (s mod n + (p - s mod n))%nat with p by lia.
    now apply Nat.mod_small.
  - exists (p + n - s mod n)%nat. split; [lia |].
    rewrite <- Nat.Div0.add_mod_idemp_l.
    replace (s mod n + (p + n - s mod n))%nat with (p + 1 * n)%nat by lia.
    rewrite Nat.Div0.mod_add. now apply Nat.mod_small.
Qed.

(** What the loop of [advance] computes from iteration [i] on: either it
    stops at the first enabled entry at an offset [k >= i], or every
    remaining offset holds a disabled entry and the last index tried is
    kept. *)
Lemma advance_loop_spec (l : list rotation.AppEntry.t) (startIdx : nat) :
  l <> [] ->
  forall steps i cur, (i + steps = length l)%nat ->
    let n := length l in
    let r := rotation.advance_loop l startIdx i steps cur in
    (exists k app, (i <= k < n)%nat /\ r = ((startIdx + k + 1) mod n)%nat /\
        l !! r = Some app /\ rotation.AppEntry.Enabled app = true /\
        forall j, (i <= j < k)%nat ->
          exists other, l !! ((startIdx + j + 1) mod n)%nat = Some other /\
                        rotation.AppEntry.Enabled other = false)
    \/ ((forall j, (i <= j < n)%nat ->
          exists other, l !! ((startIdx + j + 1) mod n)%nat = Some other /\
                        rotation.AppEntry.Enabled other = false) /\
        r = match steps with O => cur | S _ => ((startIdx + n) mod n)%nat end).
Proof.
  intros Hl. induction steps as [| k IH]; intros i cur Hi n r; subst n r.
  - right. split; [intros j Hj; lia | reflexivity].
  - simpl. destruct (lookup_mod_Some l (startIdx + i + 1) Hl) as [a Ha]. rewrite Ha.
    destruct (rotation.AppEntry.Enabled a) eqn:Ea.
    + left. exists i, a. split; [lia |]. split; [reflexivity |]. split; [exact Ha |].
      split; [exact Ea |]. intros j Hj. lia.
    + destruct (IH (S i) ((startIdx + i + 1) mod length l)%nat ltac:(lia))
        as [(k' & app & Hk & Hr & Happ & Hen & Hmin) | (Hall & Hr)].
      * left. exists k', app. split; [lia |]. split; [exact Hr |]. split; [exact Happ |].
        split; [exact Hen |]. intros j Hj. destruct (Nat.eq_dec j i) as [-> | Hne]; [exists a; auto |].
        apply Hmin. lia.
      * right. split.
        -- intros j Hj. destruct (Nat.eq_dec j i) as [-> | Hne]; [exists a; auto |].
           apply Hall. lia.
        -- rewrite Hr. destruct k; [| reflexivity].
           f_equal. lia.
Qed.

(** C5. [advance] never fails.  It changes nothing but the current index;
    on an empty list it changes nothing at all and starts no callback.
    When some entry is enabled the new index is the first enabled
    position strictly after the current one, wrapping around, found in at
    most [len(apps)] steps.  When no entry is enabled, an index inside the
    list is left where it was. *)
Theorem advance_next_enabled (m : rotation.Manager) :
  let l := rotation.apps m in
  let n := length l in
  let cur := rotation.currentIndex m in
  exists m' cb, rotation.advance m = Some (m', cb)
  /\ m' = rotation.with_currentIndex (rotation.currentIndex m') m
  /\ (l = [] -> m' = m /\ cb = None)
  /\ (Exists (fun app => rotation.AppEntry.Enabled app = true) l ->
        exists k app, (k < n)%nat /\
          rotation.currentIndex m' = ((cur + k + 1) mod n)%nat /\
          l !! rotation.currentIndex m' = Some app /\
          rotation.AppEntry.Enabled app = true /\
          forall j, (j < k)%nat ->
            exists other, l !! ((cur + j + 1) mod n)%nat = Some other /\
                          rotation.AppEntry.Enabled other = false)
  /\ (Forall (fun app => rotation.AppEntry.Enabled app = false) l -> index_ok m ->
        rotation.currentIndex m' = cur).
Proof.
  intros l n cur. unfold rotation.advance. fold l.
  destruct (Nat.eqb_spec (length l) 0) as [E | E].
  - apply length_zero_iff_nil in E. exists m, None.
    split; [reflexivity |]. split; [now destruct m |]. split; [auto |]. split.
    + rewrite E. intros H. now apply Exists_nil in H.
    + reflexivity.
  - assert (Hl : l <> []) by (intros ->; simpl in E; lia).
    pose proof (advance_loop_spec l cur Hl (length l) 0%nat cur eq_refl) as Hspec.
    cbv zeta in Hspec. fold n in Hspec |- *.
    remember (rotation.advance_loop l cur 0 n cur) as r eqn:Er.
    assert (Hr : (r < n)%nat).
    { destruct Hspec as [(k & app & _ & _ & Happ & _) | (_ & Hlast)].
      - now apply lookup_lt_Some in Happ.
      - subst n. destruct (length l) eqn:En; [lia |]. rewrite Hlast.
        apply Nat.mod_upper_bound. lia. }
    simpl. fold l cur. rewrite <- Er.
    destruct (lookup_lt_is_Some_2 l r Hr) as [a Ha]. rewrite Ha.
    eexists _, _. split; [reflexivity |]. simpl.
    split; [reflexivity |]. split; [intros El; congruence |].
    destruct Hspec as [(k & app & Hk & Hrk & Happ & Hen & Hmin) | (Hall & Hlast)].
    + split.
      * intros _. exists k, app. split; [lia |]. split; [exact Hrk |]. split; [exact Happ |].
        split; [exact Hen |]. intros j Hj. apply Hmin. lia.
      * intros Hnone _. rewrite Forall_forall in Hnone.
        apply list_elem_of_lookup_2 in Happ. apply Hnone in Happ. congruence.
    + split.
      * intros Hex. apply Exists_exists in Hex as (x & Hx & Hen).
        apply list_elem_of_lookup_1 in Hx as [p Hp].
        pose proof (lookup_lt_Some _ _ _ Hp) as Hpn. fold n in Hpn.
        destruct (mod_offset_onto (cur + 1) p n Hpn) as (j & Hj & Hjp).
        destruct (Hall j ltac:(lia)) as (o & Ho & Eo).
        replace (cur + j + 1)%nat with (cur + 1 + j)%nat in Ho by lia.
        rewrite Hjp in Ho. congruence.
      * intros _ [Hok | Hnil]; [| contradiction].
        fold l cur n in Hok. rewrite Hlast. clear Hlast Er.
        destruct n as [| n']; [lia |].
        replace (cur + S n')%nat with (cur + 1 * S n')%nat by lia.
        rewrite Nat.Div0.mod_add. apply Nat.mod_small. lia.
Qed.

(** The worked scenario: the first tick starts the timer; 5000 ms later
    the loop skips the disabled [b] and lands on [c]; 2000 ms after that
    it wraps back to [a]. *)
Example scenario_ticks :
  (rotation.currentIndex ∘ rotation.mgr <$>
     rotation.exec [rotation.EWake (rotation.WakeTick 0 0 0)] scenario) = Some 0%nat
  /\ (rotation.currentIndex ∘ rotation.mgr <$>
        rotation.exec [rotation.EWake (rotation.WakeTick 0 0 0);
                       rotation.EWake (rotation.WakeTick 0 5000000000 5000000000)]
          scenario) = Some 2%nat
  /\ (rotation.currentIndex ∘ rotation.mgr <$>
        rotation.exec [rotation.EWake (rotation.WakeTick 0 0 0);
                       rotation.EWake (rotation.WakeTick 0 5000000000 5000000000);
                       rotation.EWake (rotation.WakeTick 0 6999999999 6999999999)]
          scenario) = Some 2%nat
  /\ (rotation.currentIndex ∘ rotation.mgr <$>
        rotation.exec [rotation.EWake (rotation.WakeTick 0 0 0);
                       rotation.EWake (rotation.WakeTick 0 5000000000 5000000000);
                       rotation.EWake (rotation.WakeTick 0 7000000000 7000000000)]
          scenario) = Some 0%nat.
Proof. repeat split. Qed.

(** With every entry disabled the index stays where it is. *)
Example advance_none_enabled :
  rotation.currentIndex <$> (fst <$> rotation.advance manager_off) = Some 0%nat.
Proof. reflexivity. Qed.


(** C2. On a rotation whose only entry is disabled, [CurrentApp] selects
    nothing, yet [advance] starts the callback on that disabled entry. *)
Theorem advance_calls_back_disabled :
  rotation.CurrentApp manager_off = None
  /\ rotation.advance manager_off = Some (manager_off, Some app_off)
  /\ rotation.AppEntry.Enabled app_off = false.
Proof.
  split; [reflexivity |]. split; reflexivity.
Qed.

(** ** The notification queue *)

Lemma insert_by_priority_split (n : rotation.Notification.t) (q : list rotation.Notification.t) :
  exists before after,
    q = before ++ after /\
    rotation.insert_by_priority n q = before ++ n :: after /\
    Forall (fun e => rotation.Notification.Priority n <= rotation.Notification.Priority e) before /\
    match after with
    | [] => True
    | e :: _ => rotation.Notification.Priority e < rotation.Notification.Priority n
    end.
Proof.
  induction q as [| e q IH]; simpl.
  - exists [], []. repeat split. constructor.
  - destruct (Z.ltb_spec (rotation.Notification.Priority e) (rotation.Notification.Priority n))
      as [Hlt | Hge].
    + exists [], (e :: q). repeat split; [constructor | exact Hlt].
    + destruct IH as (before & after & Hq & Hins & Hbef & Haft).
      exists (e :: before), after. rewrite Hq at 1. rewrite Hins.
      repeat split; [now constructor | exact Haft].
Qed.

Lemma Forall_insert_by_priority (P : rotation.Notification.t -> Prop) n q :
  P n -> Forall P q -> Forall P (rotation.insert_by_priority n q).
Proof.
  intros Hn Hq. induction Hq as [| e q He Hq IH]; simpl.
  - now constructor.
  - destruct (_ <? _); repeat constructor; assumption.
Qed.

Lemma insert_by_priority_sorted n q :
  StronglySorted prio_ge q -> StronglySorted prio_ge (rotation.insert_by_priority n q).
Proof.
  induction 1 as [| e q Hs IH He]; simpl.
  - repeat constructor.
  - destruct (Z.ltb_spec (rotation.Notification.Priority e) (rotation.Notification.Priority n))
      as [Hlt | Hge].
    + constructor; [now constructor |]. constructor; [unfold prio_ge; lia |].
      eapply Forall_impl; [exact He |]. unfold prio_ge. intros x Hx. simpl in Hx. lia.
    + constructor; [exact IH |]. apply Forall_insert_by_priority; [exact Hge | exact He].
Qed.

(** In a sorted queue the new entry lands behind every entry of its own
    priority and leaves the order of all the others alone. *)
Lemma filter_insert_by_priority p n q :
  StronglySorted prio_ge q ->
  List.filter (has_prio p) (rotation.insert_by_priority n q) =
  List.filter (has_prio p) q ++ (if has_prio p n then [n] else []).
Proof.
  induction 1 as [| e q Hs IH He]; simpl.
  - destruct (has_prio p n); reflexivity.
  - destruct (Z.ltb_spec (rotation.Notification.Priority e) (rotation.Notification.Priority n))
      as [Hlt | Hge]; simpl.
    + destruct (has_prio p n) eqn:Hn; [| now rewrite app_nil_r].
      assert (Hnone : List.filter (has_prio p) (e :: q) = []).
      { apply Z.eqb_eq in Hn. change (e :: q) with ([e] ++ q).
        rewrite List.filter_app. simpl.
        assert (He' : has_prio p e = false) by (apply Z.eqb_neq; lia).
        rewrite He'. simpl.
        clear IH Hs. induction He as [| x q Hx He IHq]; [reflexivity |]. simpl.
        assert (Hx' : has_prio p x = false) by (apply Z.eqb_neq; unfold prio_ge in Hx; lia).
        now rewrite Hx'. }
      simpl in Hnone. rewrite Hnone. reflexivity.
    + rewrite IH. destruct (has_prio p e); reflexivity.
Qed.

Lemma push_all_sorted_stable ps : forall m,
  StronglySorted prio_ge (rotation.notifyQueue m) ->
  StronglySorted prio_ge (rotation.notifyQueue (push_all ps m)) /\
  forall p, List.filter (has_prio p) (rotation.notifyQueue (push_all ps m)) =
            List.filter (has_prio p) (rotation.notifyQueue m) ++
            List.filter (has_prio p) (stamped ps).
Proof.
  induction ps as [| [now n] ps IH]; intros m Hm; simpl.
  - split; [exact Hm |]. intros p. now rewrite app_nil_r.
  - destruct (IH (rotation.PushNotification now n m)) as [Hs Hf].
    { simpl. now apply insert_by_priority_sorted. }
    split; [exact Hs |]. intros p. rewrite Hf. simpl.
    rewrite filter_insert_by_priority by exact Hm.
    rewrite <- app_assoc. f_equal.
    unfold has_prio at 1 3. simpl.
    destruct (_ =? _); reflexivity.
Qed.

(** A High push after Low and Normal goes to the front; two Normal pushes
    keep their order. *)
Example push_high_after_low_normal :
  List.map rotation.Notification.ID
    (rotation.notifyQueue
       (push_all [(1, note "low" rotation.PriorityLow);
                  (2, note "n1" rotation.PriorityNormal);
                  (3, note "n2" rotation.PriorityNormal);
                  (4, note "high" rotation.PriorityHigh)]
          (rotation.NewManager 0)))
  = ["high"; "n1"; "n2"; "low"].
Proof. reflexivity. Qed.

(** C4. [PushNotification] stamps the entry and puts it immediately before
    the first queued entry of strictly lower priority, at the tail if
    there is none.  Hence after any sequence of pushes on a new manager
    the queue is in descending priority order, and the entries of each
    priority stand in the order they arrived. *)
Theorem PushNotification_priority_order :
  (forall now n m,
     let n' := rotation.Notification.with_Created now n in
     exists before after,
       rotation.notifyQueue m = before ++ after /\
       rotation.notifyQueue (rotation.PushNotification now n m) = before ++ n' :: after /\
       Forall (fun e => rotation.Notification.Priority n <= rotation.Notification.Priority e)
              before /\
       match after with
       | [] => True
       | e :: _ => rotation.Notification.Priority e < rotation.Notification.Priority n
       end)
  /\ (forall dwell ps,
        let q := rotation.notifyQueue (push_all ps (rotation.NewManager dwell)) in
        StronglySorted prio_ge q /\
        forall p, List.filter (has_prio p) q = List.filter (has_prio p) (stamped ps)).
Proof.
  split.
  - intros now n m n'. simpl.
    destruct (insert_by_priority_split n' (rotation.notifyQueue m))
      as (before & after & Hq & Hins & Hbef & Haft).
    exists before, after. auto.
  - intros dwell ps q. subst q.
    destruct (push_all_sorted_stable ps (rotation.NewManager dwell)) as [Hs Hf].
    { simpl. constructor. }
    split; [exact Hs |]. intros p. now rewrite Hf.
Qed.

(** ** Invariants of the scheduler *)

Lemma manager_inv_index_ok m : manager_inv m -> index_ok m.
Proof. intros [[H | [H _]] _ _ _ _ _]; [now left | now right]. Qed.

Lemma NewManager_inv dwell : manager_inv (rotation.NewManager dwell).
Proof.
  constructor; simpl; try reflexivity.
  - right. split; reflexivity.
  - lia.
  - unfold chan_ok. simpl. lia.
  - constructor.
Qed.

Lemma find_ID_bounds id l : forall k i,
  rotation.find_ID id l k = Some i -> (k <= i < k + length l)%nat.
Proof.
  induction l as [| a l IH]; intros k i; simpl; [discriminate |].
  destruct (String.eqb _ _).
  - intros [= ->]. lia.
  - intros H. apply IH in H. lia.
Qed.

Lemma SetBrightness_clamp v m :
  rotation.brightness (rotation.SetBrightness v m) = Z.min 100 (Z.max 0 v).
Proof.
  unfold rotation.SetBrightness. simpl.
  destruct (Z.ltb_spec v 0); [lia |]. destruct (Z.ltb_spec 100 v); lia.
Qed.

Lemma StronglySorted_filter {A} (R : A -> A -> Prop) (f : A -> bool) l :
  StronglySorted R l -> StronglySorted R (List.filter f l).
Proof.
  induction 1 as [| a l Hs IH Ha]; simpl; [constructor |].
  destruct (f a); [| exact IH].
  constructor; [exact IH |].
  rewrite Forall_forall in Ha |- *. intros x Hx.
  apply Ha. apply list_elem_of_In. apply list_elem_of_In in Hx.
  now apply List.filter_In in Hx as [Hx _].
Qed.

Lemma call_inv c m m' : manager_inv m -> rotation.call c m = Some m' -> manager_inv m'.
Proof.
  intros [Hidx Hb Hcap Hlen Hopen Hq] Hc.
  destruct c; simpl in Hc; try (injection Hc as <-).
  - (* SetApps *)
    unfold rotation.SetApps. simpl.
    destruct (Nat.leb_spec (length l) (rotation.currentIndex m));
      constructor; simpl; try assumption; [| now left].
    destruct l; [right; auto | left; simpl; lia].
  - (* AddApp *)
    constructor; simpl; try assumption. left. rewrite length_app. simpl.
    destruct Hidx as [H | [_ ->]]; lia.
  - (* RemoveApp *)
    unfold rotation.RemoveApp.
    destruct (rotation.find_ID id (rotation.apps m) 0) as [i |] eqn:Hf; simpl;
      [| now constructor].
    apply find_ID_bounds in Hf.
    assert (Hl : length (take i (rotation.apps m) ++ drop (S i) (rotation.apps m))
                 = (length (rotation.apps m) - 1)%nat).
    { rewrite length_app, length_take, length_drop. lia. }
    rewrite Hl.
    destruct (Nat.leb_spec (length (rotation.apps m) - 1) (rotation.currentIndex m)) as [Hle | Hgt];
      destruct (Nat.ltb_spec 0 (length (rotation.apps m) - 1)) as [Hpos | Hzero];
      constructor; simpl; try assumption; rewrite ?Hl; try (left; lia).
    right. split; [| destruct Hidx as [H | [_ H]]; lia].
    apply length_zero_iff_nil. lia.
  - (* SetEnabled *) now constructor.
  - (* SetBrightness *)
    constructor; try assumption. rewrite SetBrightness_clamp. lia.
  - (* Skip *)
    constructor; simpl; try assumption.
    + now rewrite try_send_cap.
    + now apply try_send_ok.
    + unfold try_send. destruct (_ <? _)%nat; assumption.
  - (* PushNotification *)
    constructor; simpl; try assumption. now apply insert_by_priority_sorted.
  - (* ClearNotifications *)
    constructor; simpl; try assumption. now apply StronglySorted_filter.
  - (* OnAdvance *) now constructor.
  - (* Stop *)
    unfold rotation.Stop in Hc. destruct (close_chan (rotation.stopCh m)); [| discriminate].
    injection Hc as <-. now constructor.
Qed.

Lemma advance_loop_lt (l : list rotation.AppEntry.t) (startIdx cur : nat) :
  l <> [] -> (rotation.advance_loop l startIdx 0 (length l) cur < length l)%nat.
Proof.
  intros Hl.
  destruct (advance_loop_spec l startIdx Hl (length l) 0%nat cur eq_refl)
    as [(k & app & _ & _ & Happ & _) | (_ & Hlast)].
  - now apply lookup_lt_Some in Happ.
  - rewrite Hlast. destruct l as [| a l]; [congruence |].
    apply Nat.mod_upper_bound. simpl. lia.
Qed.

(** [advance] does not panic, changes the index only, and leaves it inside
    a non-empty list. *)
Lemma advance_next_index (m : rotation.Manager) :
  match rotation.advance m with
  | Some (m', _) =>
      m' = rotation.with_currentIndex (rotation.currentIndex m') m /\
      (rotation.apps m <> [] ->
       (rotation.currentIndex m' < length (rotation.apps m))%nat)
  | None => False
  end.
Proof.
  unfold rotation.advance.
  destruct (Nat.eqb_spec (length (rotation.apps m)) 0) as [E | E].
  - apply length_zero_iff_nil in E. simpl. split; [now destruct m | congruence].
  - assert (Hl : rotation.apps m <> []) by (intros El; rewrite El in E; simpl in E; lia).
    pose proof (advance_loop_lt _ (rotation.currentIndex m) (rotation.currentIndex m) Hl) as Hlt.
    simpl. destruct (lookup_lt_is_Some_2 _ _ Hlt) as [a Ha]. rewrite Ha.
    split; [reflexivity | intros _; exact Hlt].
Qed.

Lemma advance_inv m m' cb :
  manager_inv m -> rotation.advance m = Some (m', cb) -> manager_inv m'.
Proof.
  intros Hm Ha. pose proof Hm as [Hidx Hb Hcap Hlen Hopen Hq].
  pose proof (advance_next_index m) as H. rewrite Ha in H. destruct H as [Hsame Hin].
  rewrite Hsame. constructor; simpl; try assumption.
  destruct (rotation.apps m) eqn:El.
  - right. split; [reflexivity |].
    unfold rotation.advance in Ha. rewrite El in Ha. simpl in Ha.
    injection Ha as <- _. destruct Hidx as [H | [_ H]]; [simpl in H; lia | exact H].
  - left. apply Hin. discriminate.
Qed.

Lemma try_recv_same c c' :
  try_recv c = Some c' -> chan_cap c' = chan_cap c /\ chan_closed c' = chan_closed c.
Proof.
  unfold try_recv. destruct (chan_len c); [destruct (chan_closed c) eqn:E |];
    intros [= <-]; auto.
Qed.

Lemma try_recv_open c c' :
  chan_closed c = false -> try_recv c = Some c' -> chan_len c = S (chan_len c').
Proof.
  unfold try_recv. intros Hopen. rewrite Hopen.
  destruct (chan_len c); [discriminate |]. now intros [= <-].
Qed.

Lemma advance_and_reset_mgr now m s s' :
  rotation.advance_and_reset now m s = Some s' ->
  exists cb, rotation.advance m = Some (rotation.mgr s', cb).
Proof.
  unfold rotation.advance_and_reset. intros H.
  destruct (rotation.advance m) as [[m' cb] |]; [| discriminate]. simpl in H.
  destruct (rotation.getCurrentDwell m'); [| discriminate].
  injection H as <-. now exists cb.
Qed.

Lemma Run_step_inv w s s' :
  manager_inv (rotation.mgr s) -> rotation.Run_step w s = Some s' ->
  manager_inv (rotation.mgr s').
Proof.
  intros Hm. pose proof Hm as [Hidx Hb Hcap Hlen Hopen Hq].
  unfold rotation.Run_step. destruct (rotation.returned s); [discriminate |].
  destruct w as [| now | | now0 now1 now2].
  - destruct (try_recv (rotation.stopCh (rotation.mgr s))); [| discriminate].
    intros [= <-]. now constructor.
  - destruct (try_recv (rotation.skipCh (rotation.mgr s))) as [c |] eqn:Hc; [| discriminate].
    simpl. intros H. apply advance_and_reset_mgr in H as [cb H].
    apply (advance_inv _ _ _) in H; [exact H |].
    destruct (try_recv_same _ _ Hc) as [Ecap Eopen].
    constructor; simpl; try assumption; [congruence | | congruence].
    eapply try_recv_ok; eassumption.
  - destruct (try_recv (rotation.updateCh (rotation.mgr s))); [| discriminate]. simpl.
    destruct (rotation.getCurrentDwell _); [| discriminate].
    intros [= <-]. now constructor.
  - destruct (negb _); [now intros [= <-] |].
    destruct (rotation.currentDwell s =? 0).
    + destruct (rotation.getCurrentDwell (rotation.mgr s)); [| discriminate]. simpl.
      destruct (_ <=? _); [| now intros [= <-]].
      intros H. apply advance_and_reset_mgr in H as [cb H]. eapply advance_inv; eassumption.
    + simpl. destruct (_ <=? _); [| now intros [= <-]].
      intros H. apply advance_and_reset_mgr in H as [cb H]. eapply advance_inv; eassumption.
Qed.

Lemma step_inv e s s' :
  manager_inv (rotation.mgr s) -> rotation.step e s = Some s' ->
  manager_inv (rotation.mgr s').
Proof.
  intros Hm. destruct e as [c | w]; simpl.
  - destruct (rotation.call c (rotation.mgr s)) as [m' |] eqn:Hc; [| discriminate].
    intros [= <-]. simpl. eapply call_inv; eassumption.
  - now apply Run_step_inv.
Qed.

Lemma exec_inv evs : forall s s',
  manager_inv (rotation.mgr s) -> rotation.exec evs s = Some s' ->
  manager_inv (rotation.mgr s').
Proof.
  induction evs as [| e evs IH]; intros s s' Hm; simpl.
  - now intros [= <-].
  - destruct (rotation.step e s) as [s1 |] eqn:Hs; [| discriminate]. simpl.
    apply IH. eapply step_inv; eassumption.
Qed.

(** Every state the scheduler reaches from a new manager, under any
    interleaving of calls and loop iterations, satisfies the invariant. *)
Lemma reachable_inv dwell evs s :
  rotation.exec evs (rotation.Run_init (rotation.NewManager dwell)) = Some s ->
  manager_inv (rotation.mgr s).
Proof. apply exec_inv. apply NewManager_inv. Qed.

(** ** Brightness *)

(** C9. [SetBrightness v] stores [min(100, max(0, v))], so 150 becomes
    100 and -5 becomes 0; a new manager has brightness 80, and after any
    interleaving of calls and loop iterations from a new manager the
    brightness is within [0, 100]. *)
Theorem brightness_always_clamped (dwell : Z) (evs : list rotation.Event)
    (s : rotation.RunState) (v : Z) :
  rotation.exec evs (rotation.Run_init (rotation.NewManager dwell)) = Some s ->
  let m := rotation.mgr s in
  rotation.brightness (rotation.SetBrightness v m) = Z.min 100 (Z.max 0 v)
  /\ rotation.brightness (rotation.SetBrightness 150 m) = 100
  /\ rotation.brightness (rotation.SetBrightness (-5) m) = 0
  /\ rotation.brightness (rotation.NewManager dwell) = 80
  /\ 0 <= rotation.brightness m <= 100.
Proof.
  intros Hs m. split; [apply SetBrightness_clamp |].
  split; [reflexivity |]. split; [reflexivity |]. split; [reflexivity |].
  apply (inv_brightness _ (reachable_inv _ _ _ Hs)).
Qed.

(** A brightness of 150 set on a new manager. *)
Lemma brightness_always_clamped_witness :
  rotation.exec [rotation.ECall (rotation.CallSetBrightness 150)]
    (rotation.Run_init (rotation.NewManager 0))
    = Some (rotation.Run_init (rotation.SetBrightness 150 (rotation.NewManager 0)))
  /\ let m := rotation.SetBrightness 150 (rotation.NewManager 0) in
     rotation.brightness (rotation.SetBrightness 7 m) = Z.min 100 (Z.max 0 7)
     /\ rotation.brightness (rotation.SetBrightness 150 m) = 100
     /\ rotation.brightness (rotation.SetBrightness (-5) m) = 0
     /\ rotation.brightness (rotation.NewManager 0) = 80
     /\ 0 <= rotation.brightness m <= 100.
Proof.
  split; [reflexivity |].
  apply (brightness_always_clamped 0 [rotation.ECall (rotation.CallSetBrightness 150)]
           (rotation.Run_init (rotation.SetBrightness 150 (rotation.NewManager 0))) 7).
  reflexivity.
Defined.

(** ** Skip coalescing *)

Lemma call_skipCh c m m' :
  rotation.call c m = Some m' ->
  rotation.skipCh m' = if rotation.is_skip_call (rotation.ECall c)
                       then try_send (rotation.skipCh m) else rotation.skipCh m.
Proof.
  destruct c; simpl; try (now intros [= <-]).
  - intros [= <-]. unfold rotation.SetApps. simpl. now destruct (_ <=? _)%nat.
  - intros [= <-]. unfold rotation.RemoveApp.
    destruct (rotation.find_ID _ _ _); [| reflexivity]. simpl.
    now destruct (_ && _)%bool.
  - unfold rotation.Stop. destruct (close_chan _); [| discriminate]. now intros [= <-].
Qed.

Lemma advance_skipCh m m' cb :
  rotation.advance m = Some (m', cb) -> rotation.skipCh m' = rotation.skipCh m.
Proof.
  intros Ha. pose proof (advance_next_index m) as H. rewrite Ha in H.
  destruct H as [-> _]. reflexivity.
Qed.

(** Each step pays for a skip wake-up with a token of the skip slot, and
    only a [Skip] call can add one. *)
Lemma step_skip_budget e s s' :
  manager_inv (rotation.mgr s) -> rotation.step e s = Some s' ->
  (chan_len (rotation.skipCh (rotation.mgr s')) + (if rotation.is_skip_wake e then 1 else 0)
   <= chan_len (rotation.skipCh (rotation.mgr s)) +
      (if rotation.is_skip_call e then 1 else 0))%nat.
Proof.
  intros [_ _ _ _ Hopen _]. destruct e as [c | w].
  - simpl rotation.step. simpl rotation.is_skip_wake.
    destruct (rotation.call c (rotation.mgr s)) as [m' |] eqn:Hc; [| discriminate].
    intros [= <-]. simpl rotation.mgr at 1. rewrite (call_skipCh _ _ _ Hc).
    destruct (rotation.is_skip_call _); [| lia].
    unfold try_send. destruct (_ <? _)%nat; simpl; lia.
  - simpl. unfold rotation.Run_step. destruct (rotation.returned s); [discriminate |].
    destruct w as [| now | | now0 now1 now2].
    + destruct (try_recv (rotation.stopCh _)); [| discriminate]. intros [= <-]. simpl. lia.
    + destruct (try_recv (rotation.skipCh _)) as [c |] eqn:Hc; [| discriminate]. simpl.
      intros H. apply advance_and_reset_mgr in H as [cb H].
      apply advance_skipCh in H. rewrite H. simpl.
      rewrite (try_recv_open _ _ Hopen Hc). lia.
    + destruct (try_recv (rotation.updateCh _)); [| discriminate]. simpl.
      destruct (rotation.getCurrentDwell _); [| discriminate]. intros [= <-]. simpl. lia.
    + destruct (negb _); [intros [= <-]; lia |].
      destruct (rotation.currentDwell s =? 0).
      * destruct (rotation.getCurrentDwell (rotation.mgr s)); [| discriminate]. simpl.
        destruct (_ <=? _); [| intros [= <-]; simpl; lia].
        intros H. apply advance_and_reset_mgr in H as [cb H].
        apply advance_skipCh in H. rewrite H. lia.
      * simpl. destruct (_ <=? _); [| intros [= <-]; simpl; lia].
        intros H. apply advance_and_reset_mgr in H as [cb H].
        apply advance_skipCh in H. rewrite H. lia.
Qed.

Lemma exec_skip_budget evs : forall s s',
  manager_inv (rotation.mgr s) -> rotation.exec evs s = Some s' ->
  (chan_len (rotation.skipCh (rotation.mgr s')) + count rotation.is_skip_wake evs
   <= chan_len (rotation.skipCh (rotation.mgr s)) + count rotation.is_skip_call evs)%nat.
Proof.
  induction evs as [| e evs IH]; intros s s' Hm; simpl.
  - intros [= <-]. unfold count. simpl. lia.
  - destruct (rotation.step e s) as [s1 |] eqn:Hs; [| discriminate]. simpl. intros He.
    pose proof (step_skip_budget _ _ _ Hm Hs) as H1.
    pose proof (IH _ _ (step_inv _ _ _ Hm Hs) He) as H2.
    unfold count in *. simpl.
    destruct (rotation.is_skip_wake e), (rotation.is_skip_call e); simpl; lia.
Qed.

(** C7. In every state reached from a new manager the skip slot holds at
    most one pending skip; a [Skip] on a state with a pending skip changes
    nothing; [Skip] twice is [Skip] once; and after two [Skip] calls, in
    any continuation without a further [Skip] call, the loop takes the
    skip branch (an early advance) at most once. *)
Theorem Skip_coalesces (dwell : Z) (evs0 : list rotation.Event) (s : rotation.RunState) :
  rotation.exec evs0 (rotation.Run_init (rotation.NewManager dwell)) = Some s ->
  let m := rotation.mgr s in
  (chan_len (rotation.skipCh m) <= 1)%nat
  /\ (chan_len (rotation.skipCh m) = 1%nat -> rotation.Skip m = m)
  /\ rotation.Skip (rotation.Skip m) = rotation.Skip m
  /\ (forall evs s',
        count rotation.is_skip_call evs = 0%nat ->
        rotation.exec (rotation.ECall rotation.CallSkip ::
                       rotation.ECall rotation.CallSkip :: evs) s = Some s' ->
        (count rotation.is_skip_wake evs <= 1)%nat).
Proof.
  intros Hs m. pose proof (reachable_inv _ _ _ Hs) as Hm.
  pose proof Hm as [_ _ Hcap Hlen _ _]. fold m in Hcap, Hlen. unfold chan_ok in Hlen.
  split; [lia |]. split; [| split].
  - intros Hfull. unfold rotation.Skip. rewrite try_send_full by lia. now destruct m.
  - unfold rotation.Skip. simpl. now rewrite try_send_twice.
  - intros evs s' Hcalls Hexec. simpl in Hexec.
    set (s2 := {| rotation.mgr := rotation.Skip (rotation.Skip (rotation.mgr s));
                  rotation.lastAdvance := rotation.lastAdvance s;
                  rotation.currentDwell := rotation.currentDwell s;
                  rotation.returned := rotation.returned s;
                  rotation.started := rotation.started s |}) in Hexec.
    assert (Hm2 : manager_inv (rotation.mgr s2)).
    { simpl. eapply (call_inv rotation.CallSkip); [| reflexivity].
      eapply (call_inv rotation.CallSkip); [exact Hm | reflexivity]. }
    pose proof (exec_skip_budget _ _ _ Hm2 Hexec) as Hbudget.
    pose proof Hm2 as [_ _ Hcap2 Hlen2 _ _]. unfold chan_ok in Hlen2.
    rewrite Hcalls in Hbudget. lia.
Qed.

(** The first state of the scheduler is reached by the empty trace. *)
Lemma Skip_coalesces_witness :
  rotation.exec [] (rotation.Run_init (rotation.NewManager 0))
    = Some (rotation.Run_init (rotation.NewManager 0))
  /\ let m := rotation.NewManager 0 in
     (chan_len (rotation.skipCh m) <= 1)%nat
     /\ (chan_len (rotation.skipCh m) = 1%nat -> rotation.Skip m = m)
     /\ rotation.Skip (rotation.Skip m) = rotation.Skip m
     /\ (forall evs s',
           count rotation.is_skip_call evs = 0%nat ->
           rotation.exec (rotation.ECall rotation.CallSkip ::
                          rotation.ECall rotation.CallSkip :: evs)
             (rotation.Run_init (rotation.NewManager 0)) = Some s' ->
           (count rotation.is_skip_wake evs <= 1)%nat).
Proof.
  split; [reflexivity |].
  apply (Skip_coalesces 0 [] (rotation.Run_init (rotation.NewManager 0))). reflexivity.
Defined.

(** ** The display: what rendering leaves alone *)

Lemma setFrame_frame now frame pixels d :
  display.rotation (display.setFrame now frame pixels d) = display.rotation d /\
  display.config (display.setFrame now frame pixels d) = display.config d /\
  display.apps (display.setFrame now frame pixels d) = display.apps d.
Proof. repeat split. Qed.

Lemma RenderSource_frame now appID source cfg d :
  let d' := fst (display.RenderSource now appID source cfg d) in
  display.rotation d' = display.rotation d /\
  display.config d' = display.config d /\
  display.apps d' = display.apps d.
Proof.
  unfold display.RenderSource.
  destruct (pixlet.RenderAppFromSource _ _ _ _); simpl; repeat split.
Qed.

Lemma renderApp_frame now app d :
  display.rotation (display.renderApp now app d) = display.rotation d /\
  display.config (display.renderApp now app d) = display.config d /\
  display.apps (display.renderApp now app d) = display.apps d.
Proof.
  unfold display.renderApp.
  destruct (pixlet.RenderApp _ _ _); [apply setFrame_frame |].
  apply RenderSource_frame.
Qed.

(** ** [ShowApp] *)

(** C6. [ShowApp] returns an error exactly when the id is not installed,
    and then the display is unchanged and no restoration is started.
    On success rotation is disabled; a restoration is started exactly
    when the duration is positive, and whenever it runs it sets the
    enabled flag to the value it had when [ShowApp] was called. *)
Theorem ShowApp_error_iff_unknown (appID : string) (durationSecs now : Z)
    (d : display.Display) :
  let r := display.ShowApp appID durationSecs now d in
  let d' := fst (fst r) in
  let err := snd (fst r) in
  let task := snd r in
  (err <> None <-> apps.Get appID (display.apps d) = None)
  /\ (apps.Get appID (display.apps d) = None ->
        d' = d /\ task = None /\ err = Some (ErrAppNotInstalled appID))
  /\ (err = None ->
        display.IsRotationEnabled d' = false /\
        display.config d' = display.config d /\
        display.apps d' = display.apps d /\
        display.rotation d' = rotation.SetEnabled false (display.rotation d) /\
        (durationSecs <= 0 -> task = None) /\
        (0 < durationSecs ->
           exists sleep,
             task = Some (display.RestoreEnabled sleep (display.IsRotationEnabled d)) /\
             forall later,
               display.run_task (display.RestoreEnabled sleep (display.IsRotationEnabled d)) later =
                 display.with_rotation
                   (rotation.SetEnabled (display.IsRotationEnabled d) (display.rotation later))
                   later /\
               display.IsRotationEnabled
                 (display.run_task
                    (display.RestoreEnabled sleep (display.IsRotationEnabled d)) later) =
                 display.IsRotationEnabled d)).
Proof.
  intros r d' err task. subst r d' err task. unfold display.ShowApp.
  destruct (apps.Get appID (display.apps d)) as [app |] eqn:Hget; simpl.
  - split; [split; [congruence | discriminate] |]. split; [discriminate |].
    intros _.
    match goal with |- context [display.renderApp ?n ?e ?x] =>
      destruct (renderApp_frame n e x) as (Hrot & Hcfg & Happs) end.
    unfold display.IsRotationEnabled. rewrite Hrot, Hcfg, Happs. simpl.
    split; [reflexivity |]. split; [reflexivity |]. split; [reflexivity |].
    split; [reflexivity |]. split.
    + intros Hle. destruct (Z.ltb_spec 0 durationSecs); [lia | reflexivity].
    + intros Hpos. destruct (Z.ltb_spec 0 durationSecs); [| lia].
      eexists. split; [reflexivity |]. intros later. split; reflexivity.
  - split; [split; [reflexivity | discriminate] |]. split; [auto |]. discriminate.
Qed.

(** ** [SetBrightness] *)

(** C10. [Display.SetBrightness v] hands the raw [v] to the configuration
    while the manager keeps the clamped value, so for [v] outside
    [0, 100] the two differ; the file, when the save succeeds, holds the
    raw [v]; and when the save fails the manager has taken the clamped
    value all the same and the error is returned. *)
Theorem SetBrightness_persists_unclamped (v : Z) (io : config.IO) (d : display.Display) :
  let d' := fst (display.SetBrightness v io d) in
  let err := snd (display.SetBrightness v io d) in
  config.Brightness (config.mem (display.config d')) = v
  /\ display.GetBrightness d' = Z.min 100 (Z.max 0 v)
  /\ (~ 0 <= v <= 100 ->
        config.Brightness (config.mem (display.config d')) <> display.GetBrightness d')
  /\ (err = None ->
        exists saved, config.file (display.config d') = Some saved /\
                      config.Brightness saved = v)
  /\ (forall msg,
        let failed := display.SetBrightness v (config.IOfail msg) d in
        snd failed <> None /\
        display.GetBrightness (fst failed) = Z.min 100 (Z.max 0 v) /\
        config.file (display.config (fst failed)) = config.file (display.config d))
  /\ (let d150 := fst (display.SetBrightness 150 io d) in
      config.Brightness (config.mem (display.config d150)) = 150 /\
      display.GetBrightness d150 = 100).
Proof.
  intros d' err. subst d' err.
  assert (Hclamp : forall w io0, display.GetBrightness (fst (display.SetBrightness w io0 d))
                                 = Z.min 100 (Z.max 0 w)).
  { intros w io0. unfold display.SetBrightness, display.persist, display.GetBrightness.
    cbn -[rotation.SetBrightness Z.min Z.max]. apply SetBrightness_clamp. }
  assert (Hraw : forall w io0,
             config.Brightness (config.mem (display.config (fst (display.SetBrightness w io0 d)))) = w).
  { intros w io0. unfold display.SetBrightness, display.persist, config.SetBrightness, config.Save.
    simpl. destruct (String.eqb _ _); [reflexivity |]. destruct io0; reflexivity. }
  split; [apply Hraw |]. split; [apply Hclamp |]. split; [| split; [| split]].
  - intros Hout. rewrite Hraw, Hclamp. lia.
  - unfold display.SetBrightness, display.persist, config.SetBrightness, config.Save. simpl.
    destruct (String.eqb _ _); [discriminate |]. destruct io; [| discriminate].
    intros _. simpl. eexists. split; reflexivity.
  - intros msg failed. subst failed. split; [| split; [apply Hclamp |]].
    + unfold display.SetBrightness, display.persist, config.SetBrightness, config.Save. simpl.
      destruct (String.eqb _ _); discriminate.
    + unfold display.SetBrightness, display.persist, config.SetBrightness, config.Save. simpl.
      destruct (String.eqb _ _); reflexivity.
  - split; [apply Hraw | apply Hclamp].
Qed.

(** ** Power off *)

(** Powering off a display whose buffer length is not negative disables
    rotation and stores a zeroed frame marked brightness 0 and dwell 0;
    [GetFrame] then returns the zeroed buffer, but with the manager's
    brightness and the configured default dwell in place of the stored
    zeros. *)
Lemma SetPower_off_frame (now : Z) (io : config.IO) (d : display.Display) :
  0 <= display.buffer_len d ->
  exists d' err blank,
    display.SetPower false now io d = Some (d', err) /\
    display.IsRotationEnabled d' = false /\
    display.currentFrame d' = Some blank /\
    display.FrameData.Pixels blank = replicate (Z.to_nat (display.buffer_len d)) 0 /\
    display.FrameData.Brightness blank = 0 /\
    display.FrameData.DwellSecs blank = 0 /\
    forall now', exists f,
      display.GetFrame now' d' = Some f /\
      display.FrameData.Pixels f = replicate (Z.to_nat (display.buffer_len d)) 0 /\
      Z.of_nat (length (display.FrameData.Pixels f)) = display.buffer_len d /\
      display.FrameData.Brightness f = display.GetBrightness d /\
      display.FrameData.DwellSecs f =
        Z.quot (config.DefaultDwell (config.mem (display.config d))) 1000.
Proof.
  intros Hlen. unfold display.SetPower, display.renderBlankScreen, display.make_bytes. simpl.
  change (display.buffer_len (display.with_rotation _ d)) with (display.buffer_len d).
  destruct (Z.ltb_spec (display.buffer_len d) 0) as [Hneg | _]; [lia |]. simpl.
  eexists _, _, _. split; [reflexivity |]. split; [reflexivity |]. split; [reflexivity |].
  simpl. split; [reflexivity |]. split; [reflexivity |]. split; [reflexivity |].
  intros now'. unfold display.GetFrame, display.persist, config.SetPower, config.Save. simpl.
  eexists. split; [reflexivity |]. simpl. split; [reflexivity |].
  split; [rewrite length_replicate; lia |]. split; [reflexivity |].
  destruct (String.eqb _ _); [reflexivity |]. destruct io; reflexivity.
Qed.

(** C1. Powering off the default display disables rotation and stores a
    zeroed frame of [64*32*3] bytes marked brightness 0 and dwell 0, but
    the frame [GetFrame] returns afterwards, while carrying the zeroed
    buffer, reports brightness 80 and dwell 10. *)
Theorem SetPower_off_GetFrame_reports_live_values :
  match display.SetPower false 1 config.IOok default_display with
  | Some (d', err) =>
      err = None
      /\ display.IsRotationEnabled d' = false
      /\ (display.FrameData.Brightness <$> display.currentFrame d') = Some 0
      /\ (display.FrameData.DwellSecs <$> display.currentFrame d') = Some 0
      /\ (display.FrameData.Pixels <$> display.GetFrame 2 d') = Some (replicate (64 * 32 * 3) 0)
      /\ (display.FrameData.Brightness <$> display.GetFrame 2 d') = Some 80
      /\ (display.FrameData.DwellSecs <$> display.GetFrame 2 d') = Some 10
  | None => False
  end.
Proof.
  vm_compute. repeat split.
Qed.

(** * Further properties of the scheduler *)

(** ** [RemoveApp] and [AddApp] *)

Lemma find_ID_None id l k :
  rotation.find_ID id l k = None <->
  Forall (fun a => rotation.AppEntry.ID a <> id) l.
Proof.
  revert k. induction l as [| a l IH]; intros k; simpl.
  - split; [constructor | reflexivity].
  - destruct (String.eqb_spec (rotation.AppEntry.ID a) id) as [E | E].
    + split; [discriminate |]. intros H. apply Forall_cons in H as [H _]. contradiction.
    + rewrite IH. split; [now constructor |]. intros H. now apply Forall_cons in H as [_ H].
Qed.

Lemma find_ID_Some id l : forall k i,
  rotation.find_ID id l k = Some i ->
  exists before app after,
    l = before ++ app :: after /\ (i = k + length before)%nat /\
    rotation.AppEntry.ID app = id /\
    Forall (fun a => rotation.AppEntry.ID a <> id) before.
Proof.
  induction l as [| a l IH]; intros k i; simpl; [discriminate |].
  destruct (String.eqb_spec (rotation.AppEntry.ID a) id) as [E | E].
  - intros [= <-]. exists [], a, l. simpl. repeat split; [lia | exact E | constructor].
  - intros H. destruct (IH _ _ H) as (before & app & after & -> & -> & Hid & Hbefore).
    exists (a :: before), app, after. simpl. repeat split; [lia | exact Hid | now constructor].
Qed.

Lemma remove_middle {A} (before : list A) (x : A) (after : list A) :
  take (length before) (before ++ x :: after) ++
  drop (S (length before)) (before ++ x :: after) = before ++ after.
Proof.
  induction before as [| b before IH]; simpl; [reflexivity |]. now rewrite IH.
Qed.

Lemma RemoveApp_found_cases (id : string) (m : rotation.Manager) :
  (rotation.RemoveApp id m = (m, false) /\
   Forall (fun a => rotation.AppEntry.ID a <> id) (rotation.apps m))
  \/ exists m' before app after,
       rotation.RemoveApp id m = (m', true) /\
       rotation.apps m = before ++ app :: after /\
       rotation.AppEntry.ID app = id /\
       Forall (fun a => rotation.AppEntry.ID a <> id) before /\
       rotation.apps m' = before ++ after.
Proof.
  unfold rotation.RemoveApp.
  destruct (rotation.find_ID id (rotation.apps m) 0) as [i |] eqn:Hf.
  - right. destruct (find_ID_Some _ _ _ _ Hf) as (before & app & after & Hl & Hi & Hid & Hb).
    eexists _, before, app, after. split; [reflexivity |]. split; [exact Hl |].
    split; [exact Hid |]. split; [exact Hb |].
    simpl in Hi. subst i. rewrite Hl, remove_middle. now destruct (_ && _)%bool.
  - left. split; [reflexivity |]. now apply (find_ID_None id _ 0%nat).
Qed.

(** [RemoveApp] reports [false] exactly when no entry has the id, and then
    changes nothing.  Otherwise it removes the first entry with that id
    and no other (later entries with the same id stay), keeps the order of
    the rest, and leaves the flag, brightness and queue alone. *)
Theorem RemoveApp_first_match (id : string) (m : rotation.Manager) :
  let m' := fst (rotation.RemoveApp id m) in
  let found := snd (rotation.RemoveApp id m) in
  (found = false <-> Forall (fun a => rotation.AppEntry.ID a <> id) (rotation.apps m))
  /\ (found = false -> m' = m)
  /\ (found = true ->
        exists before app after,
          rotation.apps m = before ++ app :: after /\
          rotation.AppEntry.ID app = id /\
          Forall (fun a => rotation.AppEntry.ID a <> id) before /\
          rotation.apps m' = before ++ after /\
          rotation.enabled m' = rotation.enabled m /\
          rotation.brightness m' = rotation.brightness m /\
          rotation.notifyQueue m' = rotation.notifyQueue m).
Proof.
  intros m' found. subst m' found. unfold rotation.RemoveApp.
  destruct (rotation.find_ID id (rotation.apps m) 0) as [i |] eqn:Hf; simpl.
  - split; [| split; [discriminate |]].
    + split; [discriminate |]. intros H. apply find_ID_None with (k := 0%nat) in H. congruence.
    + intros _. destruct (find_ID_Some _ _ _ _ Hf) as (before & app & after & Hl & Hi & Hid & Hb).
      exists before, app, after. simpl in Hi. subst i. rewrite Hl, remove_middle.
      split; [reflexivity |]. split; [exact Hid |]. split; [exact Hb |].
      destruct (_ && _)%bool; simpl; repeat split; reflexivity.
  - split; [| split; [reflexivity | discriminate]].
    split; [intros _; now apply (find_ID_None id _ 0%nat) | reflexivity].
Qed.



(** ** [ClearNotifications] *)

Lemma filter_idempotent {A} (f : A -> bool) (l : list A) :
  List.filter f (List.filter f l) = List.filter f l.
Proof.
  induction l as [| a l IH]; simpl; [reflexivity |].
  destruct (f a) eqn:Fa; simpl; [rewrite Fa, IH |]; auto.
Qed.

Lemma filter_sublist {A} (f : A -> bool) (l : list A) : sublist (List.filter f l) l.
Proof.
  induction l as [| a l IH]; simpl; [constructor |].
  destruct (f a); now constructor.
Qed.

(** [ClearNotifications] changes the queue only: what is left is the
    sticky entries, all of them, in their old order; clearing twice is
    clearing once; and, unlike the structural calls, it sends no update
    signal. *)
Theorem ClearNotifications_keeps_sticky (m : rotation.Manager) :
  let m' := rotation.ClearNotifications m in
  Forall (fun n => rotation.Notification.Priority n = rotation.PrioritySticky)
         (rotation.notifyQueue m')
  /\ (forall n, n ∈ rotation.notifyQueue m ->
        rotation.Notification.Priority n = rotation.PrioritySticky ->
        n ∈ rotation.notifyQueue m')
  /\ sublist (rotation.notifyQueue m') (rotation.notifyQueue m)
  /\ rotation.ClearNotifications m' = m'
  /\ m' = rotation.with_notifyQueue (rotation.notifyQueue m') m
  /\ rotation.updateCh m' = rotation.updateCh m.
Proof.
  intros m'. subst m'. unfold rotation.ClearNotifications. simpl.
  split; [| split; [| split; [| split; [| split]]]].
  - apply Forall_forall. intros n Hn. apply list_elem_of_In, List.filter_In in Hn as [_ Hn].
    now apply Z.eqb_eq in Hn.
  - intros n Hn Hp. apply list_elem_of_In, List.filter_In. split; [now apply list_elem_of_In |].
    now apply Z.eqb_eq.
  - apply filter_sublist.
  - unfold rotation.with_notifyQueue. simpl. now rewrite filter_idempotent.
  - reflexivity.
  - reflexivity.
Qed.

(** ** [advance] followed by [CurrentApp] *)




(** ** The control loop *)

Lemma wrap64_range z : - 2 ^ 63 <= wrap64 z < 2 ^ 63.
Proof.
  unfold wrap64. pose proof (Z.mod_pos_bound (z + 2 ^ 63) (2 ^ 64) ltac:(lia)). lia.
Qed.

Lemma advance_same_fields m m' cb :
  rotation.advance m = Some (m', cb) ->
  m' = rotation.with_currentIndex (rotation.currentIndex m') m.
Proof.
  intros Ha. pose proof (advance_next_index m) as H. rewrite Ha in H. tauto.
Qed.

Lemma advance_total m : is_Some (rotation.advance m).
Proof.
  pose proof (advance_next_index m) as H.
  destruct (rotation.advance m) as [[m' cb] |]; [eauto | contradiction].
Qed.

(** On a valid index [getCurrentDwell] does not panic: it is the entry's
    own dwell when that is positive and the default otherwise. *)
Lemma getCurrentDwell_total m :
  manager_inv m ->
  exists d, rotation.getCurrentDwell m = Some d /\
    (d = rotation.defaultDwell m \/
     exists app, rotation.apps m !! rotation.currentIndex m = Some app /\
                 0 < rotation.AppEntry.DwellMs app /\
                 d = wrap64 (rotation.AppEntry.DwellMs app * rotation.Millisecond)).
Proof.
  intros [Hidx _ _ _ _ _]. unfold rotation.getCurrentDwell.
  destruct (Nat.eqb_spec (length (rotation.apps m)) 0) as [E | E]; [eauto |].
  destruct Hidx as [Hlt | [Hnil _]]; [| rewrite Hnil in E; simpl in E; lia].
  destruct (lookup_lt_is_Some_2 _ _ Hlt) as [app Happ]. rewrite Happ.
  destruct (Z.ltb_spec 0 (rotation.AppEntry.DwellMs app)); eauto 7.
Qed.

Lemma advance_and_reset_total now m s :
  manager_inv m -> is_Some (rotation.advance_and_reset now m s).
Proof.
  intros Hm. unfold rotation.advance_and_reset.
  destruct (advance_total m) as [[m' cb] Ha]. rewrite Ha. simpl.
  destruct (getCurrentDwell_total m' (advance_inv _ _ _ Hm Ha)) as (d & Hd & _).
  rewrite Hd. simpl. eauto.
Qed.

Lemma NewManager_channels dwell : channels_inv (rotation.NewManager dwell).
Proof. constructor; simpl; try reflexivity. unfold chan_ok. simpl. lia. Qed.

Lemma try_send_closed c : chan_closed (try_send c) = chan_closed c.
Proof. unfold try_send. now destruct (_ <? _)%nat. Qed.

Lemma notifyUpdate_channels m : channels_inv m -> channels_inv (rotation.notifyUpdate m).
Proof.
  intros [Hcap Hlen Hopen Hstop]. constructor; simpl.
  - now rewrite try_send_cap.
  - now apply try_send_ok.
  - now rewrite try_send_closed.
  - exact Hstop.
Qed.

Lemma call_channels c m m' :
  channels_inv m -> rotation.call c m = Some m' -> channels_inv m'.
Proof.
  intros Hm Hc. pose proof Hm as [Hcap Hlen Hopen Hstop].
  destruct c; simpl in Hc; try (injection Hc as <-); try (now constructor).
  - unfold rotation.SetApps. destruct (_ <=? _)%nat;
      apply notifyUpdate_channels; now constructor.
  - apply notifyUpdate_channels. now constructor.
  - unfold rotation.RemoveApp. destruct (rotation.find_ID _ _ _); [| exact Hm]. simpl.
    destruct (_ && _)%bool; apply notifyUpdate_channels; now constructor.
  - apply notifyUpdate_channels. now constructor.
  - unfold rotation.Stop, close_chan in Hc.
    destruct (chan_closed (rotation.stopCh m)); [discriminate |].
    injection Hc as <-. now constructor.
Qed.

Lemma Run_step_channels w s s' :
  channels_inv (rotation.mgr s) -> rotation.Run_step w s = Some s' ->
  channels_inv (rotation.mgr s').
Proof.
  intros Hm. pose proof Hm as [Hcap Hlen Hopen Hstop].
  unfold rotation.Run_step. destruct (rotation.returned s); [discriminate |].
  assert (Hadv : forall now m0 s0, channels_inv m0 ->
            rotation.advance_and_reset now m0 s = Some s0 -> channels_inv (rotation.mgr s0)).
  { intros now m0 s0 Hm0 H. apply advance_and_reset_mgr in H as [cb H].
    apply advance_same_fields in H. rewrite H. destruct Hm0. now constructor. }
  destruct w as [| now | | now0 now1 now2].
  - destruct (try_recv (rotation.stopCh (rotation.mgr s))) as [c |] eqn:Hc; [| discriminate].
    intros [= <-]. constructor; simpl; try assumption.
    unfold try_recv in Hc. rewrite Hstop in Hc.
    destruct (chan_closed (rotation.stopCh (rotation.mgr s))); [| discriminate].
    injection Hc as <-. exact Hstop.
  - destruct (try_recv (rotation.skipCh (rotation.mgr s))) as [c |]; [| discriminate]. simpl.
    apply Hadv. now constructor.
  - destruct (try_recv (rotation.updateCh (rotation.mgr s))) as [c |] eqn:Hc; [| discriminate].
    simpl. destruct (rotation.getCurrentDwell _); [| discriminate].
    intros [= <-]. destruct (try_recv_same _ _ Hc) as [Ecap Eopen].
    constructor; simpl; try congruence. eapply try_recv_ok; eassumption.
  - destruct (negb _); [now intros [= <-] |].
    destruct (rotation.currentDwell s =? 0).
    + destruct (rotation.getCurrentDwell (rotation.mgr s)); [| discriminate]. simpl.
      destruct (_ <=? _); [now apply Hadv | now intros [= <-]].
    + simpl. destruct (_ <=? _); [now apply Hadv | now intros [= <-]].
Qed.

Lemma exec_channels evs : forall s s',
  channels_inv (rotation.mgr s) -> rotation.exec evs s = Some s' ->
  channels_inv (rotation.mgr s').
Proof.
  induction evs as [| e evs IH]; intros s s' Hm; simpl.
  - now intros [= <-].
  - destruct (rotation.step e s) as [s1 |] eqn:Hs; [| discriminate]. simpl.
    apply IH. destruct e as [c | w]; simpl in Hs.
    + destruct (rotation.call c (rotation.mgr s)) as [m' |] eqn:Hc; [| discriminate].
      injection Hs as <-. simpl. eapply call_channels; eassumption.
    + eapply Run_step_channels; eassumption.
Qed.

Lemma reachable_channels dwell evs s :
  rotation.exec evs (rotation.Run_init (rotation.NewManager dwell)) = Some s ->
  channels_inv (rotation.mgr s).
Proof. apply exec_channels. apply NewManager_channels. Qed.

(** In every state reached from a new manager the loop, while it has not
    returned, cannot panic: a tick always completes its iteration, and the
    skip, update and stop cases complete exactly when their channel is
    ready (a pending skip, a pending update, a closed stop channel). *)
Theorem Run_never_panics (dwell : Z) (evs : list rotation.Event) (s : rotation.RunState) :
  rotation.exec evs (rotation.Run_init (rotation.NewManager dwell)) = Some s ->
  rotation.returned s = false ->
  (forall now0 now1 now2, is_Some (rotation.Run_step (rotation.WakeTick now0 now1 now2) s))
  /\ (forall now, is_Some (rotation.Run_step (rotation.WakeSkip now) s) <->
                  chan_len (rotation.skipCh (rotation.mgr s)) = 1%nat)
  /\ (is_Some (rotation.Run_step rotation.WakeUpdate s) <->
      chan_len (rotation.updateCh (rotation.mgr s)) = 1%nat)
  /\ (is_Some (rotation.Run_step rotation.WakeStop s) <->
      chan_closed (rotation.stopCh (rotation.mgr s)) = true).
Proof.
  intros Hs Hrun. pose proof (reachable_inv _ _ _ Hs) as Hm.
  pose proof (reachable_channels _ _ _ Hs) as Hc.
  pose proof Hm as [Hidx Hb Hcap Hlen Hopen Hq].
  pose proof Hc as [Hucap Hulen Huopen Hstop]. unfold chan_ok in *.
  unfold rotation.Run_step. rewrite Hrun.
  split; [| split; [| split]].
  - intros now0 now1 now2. destruct (negb _); [eauto |].
    destruct (getCurrentDwell_total _ Hm) as (d & Hd & _). rewrite Hd.
    destruct (rotation.currentDwell s =? 0); simpl;
      (destruct (_ <=? _); [now apply advance_and_reset_total | eauto]).
  - intros now. unfold try_recv. rewrite Hopen.
    destruct (chan_len (rotation.skipCh (rotation.mgr s))) as [| k] eqn:Ek; simpl.
    + split; [intros H; now apply is_Some_None in H | discriminate].
    + split; [intros _; lia | intros _].
      apply advance_and_reset_total.
      constructor; simpl; try assumption; first [reflexivity | unfold chan_ok; simpl; lia].
  - unfold try_recv. rewrite Huopen.
    destruct (chan_len (rotation.updateCh (rotation.mgr s))) as [| k] eqn:Ek; simpl.
    + split; [intros H; now apply is_Some_None in H | discriminate].
    + split; [intros _; lia | intros _].
      match goal with |- is_Some (mbind _ (rotation.getCurrentDwell ?m0)) =>
        destruct (getCurrentDwell_total m0) as (d & Hd & _);
          [now constructor | rewrite Hd; simpl; eauto] end.
  - unfold try_recv. rewrite Hstop.
    destruct (chan_closed (rotation.stopCh (rotation.mgr s))); simpl.
    + split; [reflexivity | eauto].
    + split; [intros H; now apply is_Some_None in H | discriminate].
Qed.

Lemma Run_never_panics_witness :
  (forall now0 now1 now2,
     is_Some (rotation.Run_step (rotation.WakeTick now0 now1 now2) scenario))
  /\ (forall now, is_Some (rotation.Run_step (rotation.WakeSkip now) scenario) <->
                  chan_len (rotation.skipCh (rotation.mgr scenario)) = 1%nat)
  /\ (is_Some (rotation.Run_step rotation.WakeUpdate scenario) <->
      chan_len (rotation.updateCh (rotation.mgr scenario)) = 1%nat)
  /\ (is_Some (rotation.Run_step rotation.WakeStop scenario) <->
      chan_closed (rotation.stopCh (rotation.mgr scenario)) = true).
Proof.
  apply (Run_never_panics (5000 * rotation.Millisecond)
           [rotation.ECall (rotation.CallSetApps scenario_apps)] scenario);
    reflexivity.
Defined.

(** A loop iteration moves the index and drains channels, nothing else:
    it never touches the app list, the enabled flag, the brightness, the
    default dwell or the callback, and it never consumes or expires a
    queued notification. *)
Theorem Run_step_keeps_settings (w : rotation.Wake) (s s' : rotation.RunState) :
  rotation.Run_step w s = Some s' ->
  rotation.apps (rotation.mgr s') = rotation.apps (rotation.mgr s)
  /\ rotation.enabled (rotation.mgr s') = rotation.enabled (rotation.mgr s)
  /\ rotation.brightness (rotation.mgr s') = rotation.brightness (rotation.mgr s)
  /\ rotation.defaultDwell (rotation.mgr s') = rotation.defaultDwell (rotation.mgr s)
  /\ rotation.onAdvance (rotation.mgr s') = rotation.onAdvance (rotation.mgr s)
  /\ rotation.notifyQueue (rotation.mgr s') = rotation.notifyQueue (rotation.mgr s).
Proof.
  unfold rotation.Run_step. destruct (rotation.returned s); [discriminate |].
  assert (Hadv : forall now m0 s0,
            rotation.advance_and_reset now m0 s = Some s0 ->
            rotation.apps (rotation.mgr s0) = rotation.apps m0
            /\ rotation.enabled (rotation.mgr s0) = rotation.enabled m0
            /\ rotation.brightness (rotation.mgr s0) = rotation.brightness m0
            /\ rotation.defaultDwell (rotation.mgr s0) = rotation.defaultDwell m0
            /\ rotation.onAdvance (rotation.mgr s0) = rotation.onAdvance m0
            /\ rotation.notifyQueue (rotation.mgr s0) = rotation.notifyQueue m0).
  { intros now m0 s0 H. apply advance_and_reset_mgr in H as [cb H].
    apply advance_same_fields in H. rewrite H. repeat split. }
  destruct w as [| now | | now0 now1 now2].
  - destruct (try_recv _); [| discriminate]. intros [= <-]. repeat split.
  - destruct (try_recv _); [| discriminate]. simpl. intros H. apply Hadv in H. exact H.
  - destruct (try_recv _); [| discriminate]. simpl.
    destruct (rotation.getCurrentDwell _); [| discriminate]. intros [= <-]. repeat split.
  - destruct (negb _); [intros [= <-]; repeat split |].
    destruct (rotation.currentDwell s =? 0).
    + destruct (rotation.getCurrentDwell (rotation.mgr s)); [| discriminate]. simpl.
      destruct (_ <=? _); [apply Hadv | intros [= <-]; repeat split].
    + simpl. destruct (_ <=? _); [apply Hadv | intros [= <-]; repeat split].
Qed.

Lemma Run_step_keeps_settings_witness :
  let s' := {| rotation.mgr := rotation.mgr scenario; rotation.lastAdvance := 7;
               rotation.currentDwell := 5000000000; rotation.returned := false;
               rotation.started := [] |} in
  rotation.apps (rotation.mgr s') = rotation.apps (rotation.mgr scenario)
  /\ rotation.enabled (rotation.mgr s') = rotation.enabled (rotation.mgr scenario)
  /\ rotation.brightness (rotation.mgr s') = rotation.brightness (rotation.mgr scenario)
  /\ rotation.defaultDwell (rotation.mgr s') = rotation.defaultDwell (rotation.mgr scenario)
  /\ rotation.onAdvance (rotation.mgr s') = rotation.onAdvance (rotation.mgr scenario)
  /\ rotation.notifyQueue (rotation.mgr s') = rotation.notifyQueue (rotation.mgr scenario).
Proof.
  apply (Run_step_keeps_settings (rotation.WakeTick 7 8 9) scenario). reflexivity.
Defined.

(** ** Update coalescing *)

Lemma call_updateCh c m m' :
  rotation.call c m = Some m' ->
  rotation.updateCh m' = rotation.updateCh m \/
  (signals_update (rotation.ECall c) = true /\
   rotation.updateCh m' = try_send (rotation.updateCh m)).
Proof.
  destruct c; simpl; try (intros [= <-]; now left).
  - intros [= <-]. right. split; [reflexivity |].
    unfold rotation.SetApps. now destruct (_ <=? _)%nat.
  - intros [= <-]. now right.
  - intros [= <-]. unfold rotation.RemoveApp.
    destruct (rotation.find_ID _ _ _); [| now left]. right. split; [reflexivity |]. simpl.
    now destruct (_ && _)%bool.
  - intros [= <-]. now right.
  - unfold rotation.Stop. destruct (close_chan _); [| discriminate]. intros [= <-]. now left.
Qed.

Lemma step_update_budget e s s' :
  channels_inv (rotation.mgr s) -> rotation.step e s = Some s' ->
  (chan_len (rotation.updateCh (rotation.mgr s')) + (if is_update_wake e then 1 else 0)
   <= chan_len (rotation.updateCh (rotation.mgr s)) +
      (if signals_update e then 1 else 0))%nat.
Proof.
  intros [_ _ Hopen _]. destruct e as [c | w].
  - simpl rotation.step. simpl is_update_wake.
    destruct (rotation.call c (rotation.mgr s)) as [m' |] eqn:Hc; [| discriminate].
    intros [= <-]. simpl rotation.mgr at 1.
    destruct (call_updateCh _ _ _ Hc) as [-> | [-> ->]]; [lia |].
    unfold try_send. destruct (_ <? _)%nat; simpl; lia.
  - simpl. unfold rotation.Run_step. destruct (rotation.returned s); [discriminate |].
    assert (Hadv : forall now m0 s0,
              rotation.advance_and_reset now m0 s = Some s0 ->
              rotation.updateCh (rotation.mgr s0) = rotation.updateCh m0).
    { intros now m0 s0 H. apply advance_and_reset_mgr in H as [cb H].
      apply advance_same_fields in H. now rewrite H. }
    destruct w as [| now | | now0 now1 now2].
    + destruct (try_recv _); [| discriminate]. intros [= <-]. simpl. lia.
    + destruct (try_recv _); [| discriminate]. simpl. intros H. apply Hadv in H.
      rewrite H. simpl. lia.
    + destruct (try_recv (rotation.updateCh _)) as [c |] eqn:Hc; [| discriminate]. simpl.
      destruct (rotation.getCurrentDwell _); [| discriminate]. intros [= <-]. simpl.
      rewrite (try_recv_open _ _ Hopen Hc). lia.
    + destruct (negb _); [intros [= <-]; simpl; lia |].
      destruct (rotation.currentDwell s =? 0).
      * destruct (rotation.getCurrentDwell (rotation.mgr s)); [| discriminate]. simpl.
        destruct (_ <=? _); [| intros [= <-]; simpl; lia].
        intros H. apply Hadv in H. rewrite H. lia.
      * simpl. destruct (_ <=? _); [| intros [= <-]; simpl; lia].
        intros H. apply Hadv in H. rewrite H. lia.
Qed.

Lemma exec_update_budget evs : forall s s',
  channels_inv (rotation.mgr s) -> rotation.exec evs s = Some s' ->
  (chan_len (rotation.updateCh (rotation.mgr s')) + count is_update_wake evs
   <= chan_len (rotation.updateCh (rotation.mgr s)) + count signals_update evs)%nat.
Proof.
  induction evs as [| e evs IH]; intros s s' Hm; simpl.
  - intros [= <-]. unfold count. simpl. lia.
  - destruct (rotation.step e s) as [s1 |] eqn:Hs; [| discriminate]. simpl. intros He.
    pose proof (step_update_budget _ _ _ Hm Hs) as H1.
    assert (Hm1 : channels_inv (rotation.mgr s1)).
    { apply (exec_channels [e] s s1 Hm). simpl. now rewrite Hs. }
    pose proof (IH _ _ Hm1 He) as H2.
    unfold count in *. simpl.
    destruct (is_update_wake e), (signals_update e); simpl; lia.
Qed.

(** The update signal coalesces like the skip signal.  In every state
    reached from a new manager at most one update is pending, and in any
    continuation the loop takes the update branch at most once for the
    pending signal plus once per later [SetApps], [AddApp], [RemoveApp] or
    [PushNotification]; the other calls ([SetEnabled], [SetBrightness],
    [Skip], [ClearNotifications], [OnAdvance], [Stop]) never wake it. *)
Theorem update_signal_coalesces (dwell : Z) (evs0 : list rotation.Event)
    (s : rotation.RunState) :
  rotation.exec evs0 (rotation.Run_init (rotation.NewManager dwell)) = Some s ->
  (chan_len (rotation.updateCh (rotation.mgr s)) <= 1)%nat
  /\ (forall evs s', rotation.exec evs s = Some s' ->
        (count is_update_wake evs
         <= chan_len (rotation.updateCh (rotation.mgr s)) + count signals_update evs)%nat)
  /\ (forall evs s', rotation.exec evs s = Some s' ->
        count signals_update evs = 0%nat -> (count is_update_wake evs <= 1)%nat).
Proof.
  intros Hs. pose proof (reachable_channels _ _ _ Hs) as Hc.
  pose proof Hc as [Hcap Hlen _ _]. unfold chan_ok in Hlen.
  split; [lia |]. split.
  - intros evs s' He. pose proof (exec_update_budget _ _ _ Hc He). lia.
  - intros evs s' He Hz. pose proof (exec_update_budget _ _ _ Hc He). lia.
Qed.

Lemma update_signal_coalesces_witness :
  (chan_len (rotation.updateCh (rotation.mgr scenario)) <= 1)%nat
  /\ (forall evs s', rotation.exec evs scenario = Some s' ->
        (count is_update_wake evs
         <= chan_len (rotation.updateCh (rotation.mgr scenario)) +
            count signals_update evs)%nat)
  /\ (forall evs s', rotation.exec evs scenario = Some s' ->
        count signals_update evs = 0%nat -> (count is_update_wake evs <= 1)%nat).
Proof.
  apply (update_signal_coalesces (5000 * rotation.Millisecond)
           [rotation.ECall (rotation.CallSetApps scenario_apps)] scenario).
  reflexivity.
Defined.

(** ** Stopping *)

(** Closing the stop channel twice is a panic: a second [Stop] of the
    manager fails, and so does a second [Stop] of the display.  Once the
    stop channel is closed the loop can take its stop branch, and after
    it has, no branch of the loop runs again. *)
Theorem Stop_twice_panics :
  (forall m m', rotation.Stop m = Some m' ->
     rotation.Stop m' = None /\
     is_Some (rotation.Run_step rotation.WakeStop (rotation.Run_init m')))
  /\ (forall d d', display.Stop d = Some d' -> display.Stop d' = None)
  /\ (forall s s' w, rotation.Run_step rotation.WakeStop s = Some s' ->
        rotation.Run_step w s' = None).
Proof.
  split; [| split].
  - intros m m'. unfold rotation.Stop, close_chan.
    destruct (chan_closed (rotation.stopCh m)) eqn:Hc; [discriminate |].
    intros [= <-]. simpl. split; [reflexivity |].
    unfold rotation.Run_step, try_recv. simpl.
    destruct (chan_len (rotation.stopCh m)); simpl; eauto.
  - intros d d'. unfold display.Stop, rotation.Stop, close_chan.
    destruct (chan_closed (rotation.stopCh (display.rotation d))); [discriminate |]. simpl.
    destruct (chan_closed (display.stopCh d)); [discriminate |]. now intros [= <-].
  - intros s s' w. unfold rotation.Run_step at 1.
    destruct (rotation.returned s); [discriminate |].
    destruct (try_recv _); [| discriminate]. intros [= <-]. reflexivity.
Qed.

(** ** Disabled rotation, skips and the first tick *)




(** The loop's timer starts as the zero [time.Time].  If the first case
    the loop takes is an update (every [SetApps] leaves one pending), the
    dwell is set but the timer is not, so the next tick on an enabled
    rotation sees a saturated elapsed time and advances at once, whatever
    the dwell. *)
Theorem update_before_first_tick_advances (m : rotation.Manager) (now0 now1 now2 : Z) :
  manager_inv m ->
  chan_len (rotation.updateCh m) = 1%nat ->
  rotation.enabled m = true ->
  rotation.defaultDwell m < 2 ^ 63 ->
  0 <= now0 <= now1 ->
  exists s' m1 cb,
    rotation.exec [rotation.EWake rotation.WakeUpdate;
                   rotation.EWake (rotation.WakeTick now0 now1 now2)] (rotation.Run_init m)
      = Some s' /\
    try_recv (rotation.updateCh m) = Some (rotation.updateCh m1) /\
    m1 = rotation.with_updateCh (rotation.updateCh m1) m /\
    rotation.advance m1 = Some (rotation.mgr s', cb) /\
    rotation.lastAdvance s' = now2.
Proof.
  intros Hm Hlen Hon Hdwell Hnow.
  set (c := {| chan_cap := chan_cap (rotation.updateCh m); chan_len := 0;
               chan_closed := chan_closed (rotation.updateCh m) |}).
  set (m1 := rotation.with_updateCh c m).
  assert (Hrecv : try_recv (rotation.updateCh m) = Some c)
    by (unfold try_recv; now rewrite Hlen).
  assert (Hm1 : manager_inv m1) by (destruct Hm; now constructor).
  destruct (getCurrentDwell_total m1 Hm1) as (d & Hd & Hval).
  assert (Hd63 : d < 2 ^ 63).
  { destruct Hval as [-> | (app & _ & _ & ->)]; [exact Hdwell | apply wrap64_range]. }
  set (s1 := {| rotation.mgr := m1; rotation.lastAdvance := rotation.zeroTime;
                rotation.currentDwell := d; rotation.returned := false;
                rotation.started := [] |}).
  assert (H1 : rotation.Run_step rotation.WakeUpdate (rotation.Run_init m) = Some s1).
  { unfold rotation.Run_step. simpl. rewrite Hrecv. simpl. fold m1. now rewrite Hd. }
  destruct (advance_total m1) as [[m' cb] Ha].
  destruct (getCurrentDwell_total m' (advance_inv _ _ _ Hm1 Ha)) as (d' & Hd' & _).
  set (s2 := {| rotation.mgr := m'; rotation.lastAdvance := now2; rotation.currentDwell := d';
                rotation.returned := false; rotation.started := option_list cb ++ [] |}).
  assert (Hreset : rotation.advance_and_reset now2 m1 s1 = Some s2).
  { unfold rotation.advance_and_reset. rewrite Ha. simpl. now rewrite Hd'. }
  assert (H2 : rotation.Run_step (rotation.WakeTick now0 now1 now2) s1 = Some s2).
  { unfold rotation.Run_step, rotation.IsEnabled, s1.
    cbn [rotation.returned rotation.mgr rotation.currentDwell rotation.lastAdvance
         rotation.started].
    change (rotation.enabled m1) with (rotation.enabled m). rewrite Hon. cbn [negb].
    destruct (Z.eqb_spec d 0) as [Hd0 | Hd0].
    - rewrite Hd. cbn [mbind option_bind]. subst d.
      destruct (Z.leb_spec 0 (rotation.Since now1 now0)) as [Hle | Hgt]; [exact Hreset |].
      exfalso. unfold rotation.Since, rotation.maxDuration, rotation.minDuration in Hgt. lia.
    - cbn [mbind option_bind].
      assert (Hsince : rotation.Since now1 rotation.zeroTime = rotation.maxDuration).
      { unfold rotation.Since, rotation.zeroTime, rotation.maxDuration, rotation.minDuration,
          rotation.Second. lia. }
      rewrite Hsince.
      destruct (Z.leb_spec d rotation.maxDuration) as [Hle | Hgt]; [exact Hreset |].
      unfold rotation.maxDuration in Hgt. lia. }
  exists s2, m1, cb. cbn [rotation.exec rotation.step]. rewrite H1. cbn [mbind option_bind].
  rewrite H2. cbn [mbind option_bind].
  split; [reflexivity |]. split; [exact Hrecv |]. split; [reflexivity |].
  split; [exact Ha | reflexivity].
Qed.

Lemma update_before_first_tick_advances_witness :
  exists s' m1 cb,
    rotation.exec [rotation.EWake rotation.WakeUpdate;
                   rotation.EWake (rotation.WakeTick 100 100 100)] scenario
      = Some s' /\
    try_recv (rotation.updateCh (rotation.mgr scenario)) = Some (rotation.updateCh m1) /\
    m1 = rotation.with_updateCh (rotation.updateCh m1) (rotation.mgr scenario) /\
    rotation.advance m1 = Some (rotation.mgr s', cb) /\
    rotation.lastAdvance s' = 100.
Proof.
  apply (update_before_first_tick_advances (rotation.mgr scenario) 100 100 100).
  - apply (reachable_inv (5000 * rotation.Millisecond)
             [rotation.ECall (rotation.CallSetApps scenario_apps)] scenario). reflexivity.
  - reflexivity.
  - reflexivity.
  - vm_compute. reflexivity.
  - lia.
Defined.

(** * Further properties of rendering *)

(** ** [ImagesToRGB] *)

Lemma length_flat_map_const {A B} (f : A -> list B) (k : nat) (l : list A) :
  (forall a, length (f a) = k) -> length (flat_map f l) = (length l * k)%nat.
Proof.
  intros Hf. induction l as [| a l IH]; simpl; [reflexivity |].
  rewrite length_app, Hf, IH. lia.
Qed.

Lemma lookup_flat_map_const {A B} (f : A -> list B) (k : nat) (l : list A) :
  (forall a, length (f a) = k) ->
  forall i j a, l !! i = Some a -> (j < k)%nat ->
    flat_map f l !! (i * k + j)%nat = f a !! j.
Proof.
  intros Hf. induction l as [| b l IH]; intros i j a Hi Hj; [discriminate |].
  simpl. destruct i as [| i]; simpl in Hi.
  - injection Hi as ->. simpl. apply lookup_app_l. now rewrite Hf.
  - rewrite lookup_app_r by (rewrite Hf; lia). rewrite Hf.
    replace (S i * k + j - k)%nat with (i * k + j)%nat by lia. now apply IH.
Qed.

Lemma Forall_flat_map {A B} (P : B -> Prop) (f : A -> list B) (l : list A) :
  (forall a, Forall P (f a)) -> Forall P (flat_map f l).
Proof.
  intros Hf. induction l as [| a l IH]; simpl; [constructor |].
  apply Forall_app. split; [apply Hf | exact IH].
Qed.

Lemma length_pixel_bytes img x y : length (pixlet.pixel_bytes img x y) = 3%nat.
Proof. unfold pixlet.pixel_bytes. now destruct (pixlet.RGBA img x y) as [[r g] b]. Qed.

(** The wire shape of a rendered frame.  The buffer holds
    [width * height * 3] bytes per image, with the size of the first
    image used for all; every byte is in [0, 255]; and the byte of
    channel [c] of pixel [(x, y)] of image number [k] sits at
    [k * frameSize + (y * width + x) * 3 + c]: images one after the other,
    rows top to bottom, three bytes per pixel, no padding.  No image
    gives an empty buffer. *)
Theorem ImagesToRGB_layout (images : list pixlet.Image) :
  match images with
  | [] => pixlet.ImagesToRGB images = []
  | first :: _ =>
      let w := pixlet.Dx first in
      let h := pixlet.Dy first in
      length (pixlet.ImagesToRGB images) = (length images * (w * h * 3))%nat
      /\ Forall (fun b => 0 <= b < 256) (pixlet.ImagesToRGB images)
      /\ forall k img x y c,
           images !! k = Some img -> (x < w)%nat -> (y < h)%nat -> (c < 3)%nat ->
           pixlet.ImagesToRGB images !! (k * (w * h * 3) + (y * w + x) * 3 + c)%nat
           = Some (channel_byte img x y c)
  end.
Proof.
  destruct images as [| first rest]; [reflexivity |].
  intros w h. unfold pixlet.ImagesToRGB.
  set (row := fun img y => flat_map (fun x => pixlet.pixel_bytes img x y) (seq 0 w)).
  set (frame := fun img => flat_map (row img) (seq 0 h)).
  assert (Hrow : forall img y, length (row img y) = (w * 3)%nat).
  { intros img y. unfold row.
    rewrite (length_flat_map_const _ 3) by (intros; apply length_pixel_bytes).
    now rewrite length_seq. }
  assert (Hframe : forall img, length (frame img) = (w * h * 3)%nat).
  { intros img. unfold frame. rewrite (length_flat_map_const _ (w * 3)) by (apply Hrow).
    rewrite length_seq. lia. }
  change (flat_map _ (first :: rest)) with (flat_map frame (first :: rest)).
  split; [now apply length_flat_map_const |]. split.
  - apply Forall_flat_map. intros img. apply Forall_flat_map. intros y.
    apply Forall_flat_map. intros x. unfold pixlet.pixel_bytes, pixlet.to_byte.
    destruct (pixlet.RGBA img x y) as [[r g] b].
    repeat constructor; apply Z.mod_pos_bound; lia.
  - intros k img x y c Hk Hx Hy Hc.
    replace (k * (w * h * 3) + (y * w + x) * 3 + c)%nat
      with (k * (w * h * 3) + (y * (w * 3) + (x * 3 + c)))%nat by lia.
    rewrite (lookup_flat_map_const frame (w * h * 3) _ Hframe k _ img Hk) by nia.
    unfold frame.
    rewrite (lookup_flat_map_const (row img) (w * 3) _ (Hrow img) y _ y)
      by (try (apply lookup_seq_lt; lia); lia).
    unfold row.
    rewrite (lookup_flat_map_const (fun x0 => pixlet.pixel_bytes img x0 y) 3 _
               (fun x0 => length_pixel_bytes img x0 y) x _ x)
      by (try (apply lookup_seq_lt; lia); lia).
    unfold pixlet.pixel_bytes, channel_byte. destruct (pixlet.RGBA img x y) as [[r g] b].
    destruct c as [| [| [| c]]]; try reflexivity. lia.
Qed.

(** ** [generateTestPattern] *)


Section TestPattern.

Variables W H : Z.
Hypothesis W_pos : 0 < W.
Hypothesis H_pos : 0 < H.
Hypothesis small : W * H * 255 < 2 ^ 63.




End TestPattern.



(** * Further properties of the display *)

(** ** Power *)


Lemma Save_mem io s : config.mem (fst (config.Save io s)) = config.mem s.
Proof.
  unfold config.Save. destruct (String.eqb _ _); [reflexivity |]. now destruct io.
Qed.





(** ** Persistence *)

Lemma Save_result io s :
  (snd (config.Save io s) = None <->
   config.path (config.mem s) <> String.EmptyString /\ io = config.IOok)
  /\ (snd (config.Save io s) = None -> config.file (fst (config.Save io s)) = Some (config.mem s))
  /\ (snd (config.Save io s) <> None -> fst (config.Save io s) = s).
Proof.
  unfold config.Save.
  destruct (String.eqb_spec (config.path (config.mem s)) String.EmptyString) as [E | E]; simpl.
  - split; [split; [discriminate | intros [H _]; contradiction] |].
    split; [discriminate | reflexivity].
  - destruct io; simpl.
    + split; [split; auto |]. split; [reflexivity | congruence].
    + split; [split; [discriminate | intros [_ H]; discriminate] |].
      split; [discriminate | reflexivity].
Qed.


(** ** The rotation list and flag of a display *)

Lemma persist_fields r d :
  display.rotation (fst (display.persist r d)) = display.rotation d /\
  display.config (fst (display.persist r d)) = fst r /\
  snd (display.persist r d) = snd r.
Proof. repeat split. Qed.

(** For the rotation flag and the rotation list the live value and the
    value in the configuration agree after the call, whether or not the
    save succeeded, and the error returned is the error of the save. *)
Theorem rotation_settings_live_and_persisted_agree (io : config.IO) (d : display.Display)
    (b : bool) (l : list rotation.AppEntry.t) :
  (let r := display.SetRotationEnabled b io d in
   display.IsRotationEnabled (fst r) = b
   /\ config.RotationEnabled (config.mem (display.config (fst r))) = b
   /\ (snd r = None <->
       config.path (config.mem (display.config d)) <> String.EmptyString /\ io = config.IOok))
  /\ (let r := display.SetRotationApps l io d in
      display.GetRotationApps (fst r) = l
      /\ config.GetApps (display.config (fst r)) = l
      /\ (snd r = None <->
          config.path (config.mem (display.config d)) <> String.EmptyString /\
          io = config.IOok)).
Proof.
  split.
  - unfold display.SetRotationEnabled, display.persist, config.SetRotationEnabled. cbn [fst snd].
    split; [reflexivity |]. cbn. rewrite Save_mem. split; [reflexivity |].
    apply (Save_result io (config.update (config.with_RotationEnabled b) (display.config d))).
  - unfold display.SetRotationApps, display.persist, config.SetApps, config.GetApps,
      display.GetRotationApps, rotation.GetApps. cbn [fst snd].
    split.
    + cbn. unfold rotation.SetApps. now destruct (_ <=? _)%nat.
    + cbn. rewrite Save_mem. split; [reflexivity |].
      apply (Save_result io (config.update (config.with_Apps l) (display.config d))).
Qed.

(** [AddToRotation] fails with "not installed", changing nothing, exactly
    when the repository has no app of that id.  Otherwise it appends an
    enabled entry with the app's name, path and configuration and no dwell
    override, without looking for an entry of the same id already in the
    list, and stores the new list in the configuration. *)
Theorem AddToRotation_appends (appID : string) (io : config.IO) (d : display.Display) :
  let r := display.AddToRotation appID io d in
  (apps.Get appID (display.apps d) = None ->
     r = (d, Some (ErrAppNotInstalled appID)))
  /\ (forall app, apps.Get appID (display.apps d) = Some app ->
        display.GetRotationApps (fst r) =
          display.GetRotationApps d ++
          [rotation.AppEntry.mk appID (apps.App.Name app) (apps.App.Path app)
             (apps.App.Config app) 0 true]
        /\ config.GetApps (display.config (fst r)) = display.GetRotationApps (fst r)
        /\ rotation.currentIndex (display.rotation (fst r)) =
             rotation.currentIndex (display.rotation d)
        /\ snd r <> Some (ErrAppNotInstalled appID)).
Proof.
  intros r. subst r. unfold display.AddToRotation.
  destruct (apps.Get appID (display.apps d)) as [app |].
  - split; [discriminate |]. intros app' [= <-].
    unfold display.persist, config.SetApps, config.GetApps, display.GetRotationApps,
      rotation.GetApps. cbn [fst snd]. cbn. rewrite Save_mem.
    split; [reflexivity |]. split; [reflexivity |]. split; [reflexivity |].
    unfold config.Save. destruct (String.eqb _ _); [discriminate |]. now destruct io.
  - split; [reflexivity | discriminate].
Qed.

(** [RemoveFromRotation] fails with "not in rotation", changing nothing,
    exactly when no entry has the id.  Otherwise the first entry with the
    id is dropped and the new list is stored in the configuration. *)
Theorem RemoveFromRotation_drops_first (appID : string) (io : config.IO)
    (d : display.Display) :
  let r := display.RemoveFromRotation appID io d in
  (snd r = Some (ErrAppNotInRotation appID) <->
   Forall (fun a => rotation.AppEntry.ID a <> appID) (display.GetRotationApps d))
  /\ (snd r = Some (ErrAppNotInRotation appID) -> fst r = d)
  /\ (snd r <> Some (ErrAppNotInRotation appID) ->
        exists before app after,
          display.GetRotationApps d = before ++ app :: after /\
          rotation.AppEntry.ID app = appID /\
          Forall (fun a => rotation.AppEntry.ID a <> appID) before /\
          display.GetRotationApps (fst r) = before ++ after /\
          config.GetApps (display.config (fst r)) = before ++ after).
Proof.
  intros r. subst r. unfold display.RemoveFromRotation.
  destruct (RemoveApp_found_cases appID (display.rotation d)) as [(Hr & Hnone) | Hfound].
  - rewrite Hr. cbn. split; [split; [intros _; exact Hnone | reflexivity] |].
    split; [reflexivity | congruence].
  - destruct Hfound as (m' & before & app & after & Hr & Hl & Hid & Hb & Hl').
    rewrite Hr. cbn [negb].
    unfold display.persist, config.SetApps, config.GetApps, display.GetRotationApps,
      rotation.GetApps. cbn [fst snd].
    assert (Hsave : forall s, snd (config.Save io s) <> Some (ErrAppNotInRotation appID)).
    { intros s. unfold config.Save. destruct (String.eqb _ _); [discriminate |].
      now destruct io. }
    split; [split |].
    + intros H. now apply Hsave in H.
    + intros Hall. unfold display.GetRotationApps, rotation.GetApps in Hall. rewrite Hl in Hall.
      apply Forall_app in Hall as [_ Hall]. apply Forall_cons in Hall as [Hall _]. contradiction.
    + split; [intros H; now apply Hsave in H |]. intros _.
      exists before, app, after. cbn. rewrite Save_mem. cbn. auto.
Qed.

(** ** [ShowApp] restorations and [PushText] *)





(** ** What every display keeps *)






Lemma identity_setFrame now frame px d :
  display.ID (display.setFrame now frame px d) = display.ID d /\
  display.Width (display.setFrame now frame px d) = display.Width d /\
  display.Height (display.setFrame now frame px d) = display.Height d.
Proof. repeat split. Qed.








(** ** Rendering never steers the display *)

Lemma same_setFrame now frame px d : same_but_rendering (display.setFrame now frame px d) d.
Proof. repeat split. Qed.

Lemma same_RenderSource now appID source cfg d :
  same_but_rendering (fst (display.RenderSource now appID source cfg d)) d.
Proof.
  unfold display.RenderSource. destruct (pixlet.RenderAppFromSource _ _ _ _); repeat split.
Qed.

Lemma same_renderApp now app d : same_but_rendering (display.renderApp now app d) d.
Proof.
  unfold display.renderApp.
  destruct (pixlet.RenderApp _ _ _); [repeat split | apply same_RenderSource].
Qed.

Lemma same_sym d1 d2 : same_but_rendering d1 d2 -> same_but_rendering d2 d1.
Proof. unfold same_but_rendering. intuition congruence. Qed.

Lemma same_trans d1 d2 d3 :
  same_but_rendering d1 d2 -> same_but_rendering d2 d3 -> same_but_rendering d1 d3.
Proof. unfold same_but_rendering. intuition congruence. Qed.

Lemma same_with_rotation m d1 d2 :
  same_but_rendering d1 d2 ->
  same_but_rendering (display.with_rotation m d1) (display.with_rotation m d2).
Proof. unfold same_but_rendering. cbn. intuition congruence. Qed.

Lemma same_with_config c d1 d2 :
  same_but_rendering d1 d2 ->
  same_but_rendering (display.with_config c d1) (display.with_config c d2).
Proof. unfold same_but_rendering. cbn. intuition congruence. Qed.

Lemma same_with_currentFrame f1 f2 d1 d2 :
  same_but_rendering d1 d2 ->
  same_but_rendering (display.with_currentFrame f1 d1) (display.with_currentFrame f2 d2).
Proof. unfold same_but_rendering. cbn. intuition congruence. Qed.

(** Rendering on both sides of two displays that agree but for rendering. *)
Lemma same_rendered d1 d2 d1' d2' :
  same_but_rendering d1 d2 -> same_but_rendering d1' d1 -> same_but_rendering d2' d2 ->
  same_but_rendering d1' d2'.
Proof.
  intros H12 H1 H2. eapply same_trans; [exact H1 |]. eapply same_trans; [exact H12 |].
  now apply same_sym.
Qed.

Ltac norm :=
  cbn [fst snd display.config display.rotation display.apps display.stopCh
       display.with_rotation display.with_config display.persist].

Lemma display_step_same e d1 d2 :
  same_but_rendering d1 d2 ->
  match display_step e d1, display_step e d2 with
  | Some a, Some b => same_but_rendering a b
  | None, None => True
  | _, _ => False
  end.
Proof.
  intros Hs. pose proof Hs as (Hid & Hname & Hw & Hh & Hct & Hcfg & Happs & Hrot & Hstop).
  destruct e; simpl.
  - unfold display.SetBrightness. norm. rewrite Hrot, Hcfg.
    now apply same_with_config, same_with_rotation.
  - unfold display.SetPower. destruct on; cbn [negb].
    + rewrite Hrot, Hcfg.
      set (m := rotation.SetEnabled _ _). cbn [display.rotation display.with_rotation].
      destruct (rotation.CurrentApp m) as [app |]; cbn.
      * match goal with |- same_but_rendering (display.with_config ?c1 ?x) (display.with_config ?c2 ?y) =>
          replace c1 with c2; [apply same_with_config |] end.
        -- eapply same_rendered; [| apply same_renderApp | apply same_renderApp].
           now apply same_with_rotation.
        -- destruct (same_renderApp now app (display.with_rotation m d1)) as (_&_&_&_&_& -> &_).
           destruct (same_renderApp now app (display.with_rotation m d2)) as (_&_&_&_&_& -> &_).
           cbn. now rewrite Hcfg.
      * unfold display.renderStartupScreen.
        match goal with |- same_but_rendering (display.with_config ?c1 ?x) (display.with_config ?c2 ?y) =>
          replace c1 with c2; [apply same_with_config |] end.
        -- eapply same_rendered; [| apply same_RenderSource | apply same_RenderSource].
           now apply same_with_rotation.
        -- destruct (same_RenderSource now "startup" StartupProgram ∅
                       (display.with_rotation m d1)) as (_&_&_&_&_& -> &_).
           destruct (same_RenderSource now "startup" StartupProgram ∅
                       (display.with_rotation m d2)) as (_&_&_&_&_& -> &_).
           cbn. now rewrite Hcfg.
    + unfold display.renderBlankScreen, display.buffer_len. cbn. rewrite Hw, Hh, Hrot.
      destruct (display.make_bytes _); cbn; [| exact I]. rewrite Hcfg.
      apply same_with_config. now apply same_with_currentFrame, same_with_rotation.
  - unfold display.SetRotationEnabled. norm. rewrite Hrot, Hcfg.
    now apply same_with_config, same_with_rotation.
  - unfold display.Skip. rewrite Hrot. now apply same_with_rotation.
  - unfold display.SetRotationApps. norm. rewrite Hrot, Hcfg.
    now apply same_with_config, same_with_rotation.
  - unfold display.AddToRotation. rewrite Happs.
    destruct (apps.Get appID (display.apps d2)); [| exact Hs].
    norm. rewrite Hrot, Hcfg.
    now apply same_with_config, same_with_rotation.
  - unfold display.RemoveFromRotation. rewrite Hrot.
    destruct (rotation.RemoveApp appID (display.rotation d2)) as [m found].
    destruct found; cbn [negb]; norm; [| exact Hs]. rewrite Hcfg.
    now apply same_with_config, same_with_rotation.
  - unfold display.ShowApp. rewrite Happs.
    destruct (apps.Get appID (display.apps d2)); cbn [fst]; [| exact Hs].
    eapply same_rendered; [| apply same_renderApp | apply same_renderApp].
    rewrite Hrot. now apply same_with_rotation.
  - destruct t. cbn. rewrite Hrot. now apply same_with_rotation.
  - unfold display.PushText.
    eapply same_rendered; [| apply same_RenderSource | apply same_RenderSource].
    rewrite Hrot. now apply same_with_rotation.
  - eapply same_rendered; [exact Hs | apply same_RenderSource | apply same_RenderSource].
  - unfold display.Start. rewrite Hrot.
    destruct (rotation.CurrentApp _); [| exact Hs].
    eapply same_rendered; [exact Hs | apply same_renderApp | apply same_renderApp].
  - eapply same_rendered; [exact Hs | apply same_renderApp | apply same_renderApp].
  - rewrite Hrot. destruct (rotation.Run_step _ _); cbn; [| exact I].
    now apply same_with_rotation.
  - unfold display.Stop. rewrite Hrot, Hstop.
    destruct (rotation.Stop _); cbn; [| exact I].
    destruct (close_chan _); cbn; [| exact I].
    unfold same_but_rendering. cbn. intuition congruence.
Qed.

(** Rendering has no way back into scheduling.  Two displays built from
    the same configuration and repository but with different renderers
    (one that always fails, say, and one that never does), put through
    the same calls, restorations, callbacks and loop iterations, panic on
    the same events and otherwise stay equal in everything but the frame
    they show: the same rotation list, position, flag, brightness, queue,
    signals and configuration. *)
Theorem scheduling_independent_of_rendering (id name : string) (w h : Z) (cfg : config.Store)
    (repo : apps.Repository)
    (run_file1 run_file2 : string -> gmap string string -> pixlet.Frame.t + error)
    (run_source1 run_source2 : string -> Program -> gmap string string -> pixlet.Frame.t + error)
    (t0 : Z) (es : list DisplayEvent) :
  match display_exec es (display.NewDisplay id name w h cfg repo run_file1 run_source1 t0),
        display_exec es (display.NewDisplay id name w h cfg repo run_file2 run_source2 t0) with
  | Some a, Some b => same_but_rendering a b
  | None, None => True
  | _, _ => False
  end.
Proof.
  assert (H0 : same_but_rendering
                 (display.NewDisplay id name w h cfg repo run_file1 run_source1 t0)
                 (display.NewDisplay id name w h cfg repo run_file2 run_source2 t0)).
  { unfold display.NewDisplay, display.renderStartupScreen.
    eapply same_rendered; [| apply same_RenderSource | apply same_RenderSource].
    repeat split. }
  revert H0. generalize (display.NewDisplay id name w h cfg repo run_file1 run_source1 t0)
                        (display.NewDisplay id name w h cfg repo run_file2 run_source2 t0).
  induction es as [| e es IH]; intros d1 d2 Hs; simpl; [exact Hs |].
  pose proof (display_step_same e d1 d2 Hs) as Hstep.
  destruct (display_step e d1) as [a |], (display_step e d2) as [b |]; cbn;
    try contradiction; [now apply IH | exact I].
Qed.

(** ** Brightness reaches the next snapshot without a render *)

(** [SetBrightness] does not render: the stored frame is untouched.  Yet
    the very next [GetFrame] on a display that has a frame reports the
    new (clamped) brightness, with the pixels, size, frame count, delay,
    name and time stamp of the frame rendered before. *)
Theorem SetBrightness_shows_without_render (v : Z) (io : config.IO) (now : Z)
    (d : display.Display) (f0 : display.FrameData.t) :
  display.currentFrame d = Some f0 ->
  let d' := fst (display.SetBrightness v io d) in
  display.currentFrame d' = Some f0
  /\ exists f,
       display.GetFrame now d' = Some f
       /\ display.FrameData.Brightness f = Z.min 100 (Z.max 0 v)
       /\ display.FrameData.Pixels f = display.FrameData.Pixels f0
       /\ display.FrameData.Width f = display.FrameData.Width f0
       /\ display.FrameData.Height f = display.FrameData.Height f0
       /\ display.FrameData.FrameCount f = display.FrameData.FrameCount f0
       /\ display.FrameData.DelayMs f = display.FrameData.DelayMs f0
       /\ display.FrameData.AppName f = display.FrameData.AppName f0
       /\ display.FrameData.UpdatedAt f = display.FrameData.UpdatedAt f0.
Proof.
  intros Hf d'. subst d'. unfold display.SetBrightness, display.persist. cbn [fst].
  split; [exact Hf |]. unfold display.GetFrame.
  cbn [display.currentFrame display.with_config display.with_rotation]. rewrite Hf.
  eexists. split; [reflexivity |].
  cbn -[rotation.SetBrightness Z.min Z.max]. split; [apply SetBrightness_clamp |]. repeat split.
Qed.

Lemma SetBrightness_shows_without_render_witness :
  let f0 := display.FrameData.mk [] 64 32 1 50 10 80 "startup" 0 in
  let d0 := display.with_currentFrame (Some f0) default_display in
  let d' := fst (display.SetBrightness 150 config.IOok d0) in
  display.currentFrame d' = Some f0
  /\ exists f,
       display.GetFrame 9 d' = Some f
       /\ display.FrameData.Brightness f = Z.min 100 (Z.max 0 150)
       /\ display.FrameData.Pixels f = display.FrameData.Pixels f0
       /\ display.FrameData.Width f = display.FrameData.Width f0
       /\ display.FrameData.Height f = display.FrameData.Height f0
       /\ display.FrameData.FrameCount f = display.FrameData.FrameCount f0
       /\ display.FrameData.DelayMs f = display.FrameData.DelayMs f0
       /\ display.FrameData.AppName f = display.FrameData.AppName f0
       /\ display.FrameData.UpdatedAt f = display.FrameData.UpdatedAt f0.
Proof.
  intros f0 d0.
  apply (SetBrightness_shows_without_render 150 config.IOok 9 d0 f0). reflexivity.
Defined.

(** ** Notifications are only ever removed by [ClearNotifications] *)

Lemma elem_of_insert_by_priority x n q :
  x ∈ q -> x ∈ rotation.insert_by_priority n q.
Proof.
  intros Hx. destruct (insert_by_priority_split n q) as (before & after & Hq & Hins & _).
  rewrite Hins. rewrite Hq in Hx. apply elem_of_app in Hx as [Hx | Hx].
  - apply elem_of_app. now left.
  - apply elem_of_app. right. now apply list_elem_of_further.
Qed.

Lemma call_keeps_sticky c m m' x :
  rotation.call c m = Some m' ->
  x ∈ rotation.notifyQueue m ->
  is_sticky x = true \/ c <> rotation.CallClearNotifications ->
  x ∈ rotation.notifyQueue m'.
Proof.
  intros Hc Hx Hkeep. destruct c; simpl in Hc; try (injection Hc as <-); try exact Hx.
  - unfold rotation.SetApps. now destruct (_ <=? _)%nat.
  - unfold rotation.RemoveApp. destruct (rotation.find_ID _ _ _); [| exact Hx]. simpl.
    now destruct (_ && _)%bool.
  - simpl. now apply elem_of_insert_by_priority.
  - simpl. destruct Hkeep as [Hs | Hne]; [| contradiction].
    apply list_elem_of_In, List.filter_In. split; [now apply list_elem_of_In | exact Hs].
  - unfold rotation.Stop in Hc. destruct (close_chan _); [| discriminate].
    now injection Hc as <-.
Qed.

Lemma Run_step_queue w s s' :
  rotation.Run_step w s = Some s' ->
  rotation.notifyQueue (rotation.mgr s') = rotation.notifyQueue (rotation.mgr s).
Proof.
  unfold rotation.Run_step. destruct (rotation.returned s); [discriminate |].
  assert (Hadv : forall now m0 s0,
            rotation.advance_and_reset now m0 s = Some s0 ->
            rotation.notifyQueue (rotation.mgr s0) = rotation.notifyQueue m0).
  { intros now m0 s0 H. apply advance_and_reset_mgr in H as [cb H].
    apply advance_same_fields in H. now rewrite H. }
  destruct w as [| now | | now0 now1 now2].
  - destruct (try_recv _); [| discriminate]. now intros [= <-].
  - destruct (try_recv _); [| discriminate]. simpl. intros H. now apply Hadv in H.
  - destruct (try_recv _); [| discriminate]. simpl.
    destruct (rotation.getCurrentDwell _); [| discriminate]. now intros [= <-].
  - destruct (negb _); [now intros [= <-] |].
    destruct (rotation.currentDwell s =? 0).
    + destruct (rotation.getCurrentDwell (rotation.mgr s)); [| discriminate]. simpl.
      destruct (_ <=? _); [apply Hadv | now intros [= <-]].
    + simpl. destruct (_ <=? _); [apply Hadv | now intros [= <-]].
Qed.

(** No notification ever expires or is consumed.  Along any interleaving
    of calls and loop iterations a sticky notification, once queued,
    stays queued for good, and any notification stays queued as long as
    [ClearNotifications] is not called. *)
Theorem notifications_leave_only_by_clear (evs : list rotation.Event)
    (s s' : rotation.RunState) (x : rotation.Notification.t) :
  rotation.exec evs s = Some s' ->
  x ∈ rotation.notifyQueue (rotation.mgr s) ->
  is_sticky x = true \/
  Forall (fun e => e <> rotation.ECall rotation.CallClearNotifications) evs ->
  x ∈ rotation.notifyQueue (rotation.mgr s').
Proof.
  revert s. induction evs as [| e evs IH]; intros s; simpl.
  - now intros [= <-].
  - destruct (rotation.step e s) as [s1 |] eqn:Hs; [| discriminate]. simpl.
    intros He Hx Hkeep. apply (IH s1 He).
    + destruct e as [c | w]; simpl in Hs.
      * destruct (rotation.call c (rotation.mgr s)) as [m' |] eqn:Hc; [| discriminate].
        injection Hs as <-. simpl. apply (call_keeps_sticky c _ _ x Hc Hx).
        destruct Hkeep as [Hst | Hall]; [now left | right].
        intros ->. apply Forall_cons in Hall as [Hne _]. now apply Hne.
      * now rewrite (Run_step_queue _ _ _ Hs).
    + destruct Hkeep as [Hst | Hall]; [now left | right].
      now apply Forall_cons in Hall as [_ Hall].
Qed.

Lemma notifications_leave_only_by_clear_witness :
  let n := rotation.Notification.with_Created 1 (note "s" rotation.PrioritySticky) in
  let s := rotation.Run_init (rotation.PushNotification 1 (note "s" rotation.PrioritySticky)
                                (rotation.NewManager 0)) in
  n ∈ rotation.notifyQueue
        (rotation.mgr (rotation.Run_init
                         (rotation.ClearNotifications (rotation.mgr s)))).
Proof.
  intros n s.
  apply (notifications_leave_only_by_clear
           [rotation.ECall rotation.CallClearNotifications] s
           (rotation.Run_init (rotation.ClearNotifications (rotation.mgr s))) n).
  - reflexivity.
  - apply list_elem_of_here.
  - left. reflexivity.
Defined.
